(** * GCP-Log-Transformer: the tailing / deduplication / pruning engine

    A shallow embedding of [parser.py], [files.py] and [prune.py], and
    of the threads that [main.py] starts over the one shared cache.

    - Python [str] values are lists of Unicode code points.
    - Python [dict]s are association lists kept in insertion order (the
      order in which [dict.items()] enumerates them).
    - [datetime] values are integers (ticks of the wall clock),
      [timedelta] values are integer tick differences.
    - Every read of [datetime.now()] is an explicit argument.
    - Exceptions are an explicit outcome; what the program wrote and
      which lock operations it performed is recorded in a trace. *)

From Stdlib Require Import Ascii String DecimalString.
From Stdlib Require Import List Bool Arith ZArith NArith QArith Lia Permutation.
Import ListNotations.

Local Open Scope Z_scope.

(** ** Strings *)

Definition char := N.
Definition str := list char.

Definition str_eq_dec : forall a b : str, {a = b} + {a <> b} :=
  list_eq_dec N.eq_dec.

(** Literals: the code points of an ASCII text. *)
Definition s2l (s : string) : str :=
  map N_of_ascii (list_ascii_of_string s).

(** [str(n)] for a Python [int], as used by f-strings. *)
Definition str_of_int (n : Z) : str :=
  s2l (NilZero.string_of_int (Z.to_int n)).

(** [str.isspace] on one code point (CPython's [_PyUnicode_IsWhitespace]). *)
Definition isspace (c : char) : bool :=
  (((9 <=? c) && (c <=? 13)) || ((28 <=? c) && (c <=? 32))
   || (c =? 133) || (c =? 160) || (c =? 5760)
   || ((8192 <=? c) && (c <=? 8202))
   || (c =? 8232) || (c =? 8233) || (c =? 8239) || (c =? 8287)
   || (c =? 12288))%N.

Fixpoint lstrip (s : str) : str :=
  match s with
  | [] => []
  | c :: r => if isspace c then lstrip r else s
  end.

Definition rstrip (s : str) : str := rev (lstrip (rev s)).

(** [s.strip()] *)
Definition strip (s : str) : str := rstrip (lstrip s).

Definition lbracket : char := 91%N.
Definition rbracket : char := 93%N.

(** [s.startswith(c)] for a one-character prefix. *)
Definition startswith (c : char) (s : str) : bool :=
  match s with
  | [] => false
  | d :: _ => N.eqb d c
  end.

(** [c in s] for a one-character needle. *)
Definition contains_char (c : char) (s : str) : bool :=
  existsb (N.eqb c) s.

(** [s.find(c)]: the index of the first occurrence; [None] stands for
    Python's [-1]. *)
Fixpoint find (c : char) (s : str) : option nat :=
  match s with
  | [] => None
  | d :: r =>
      if N.eqb d c then Some O
      else match find c r with
           | Some i => Some (S i)
           | None => None
           end
  end.

(** [s[lo:hi]] and [s[lo:]] for indices inside the string. *)
Definition slice (lo hi : nat) (s : str) : str :=
  firstn (hi - lo) (skipn lo s).
Definition slice_from (lo : nat) (s : str) : str := skipn lo s.

(** [needle in hay] for strings. *)
Fixpoint is_prefix (p s : str) : bool :=
  match p, s with
  | [], _ => true
  | _ :: _, [] => false
  | a :: p', b :: s' => N.eqb a b && is_prefix p' s'
  end.

Fixpoint contains (needle hay : str) : bool :=
  is_prefix needle hay ||
  match hay with
  | [] => false
  | _ :: r => contains needle r
  end.

(** ** Exceptions and outcomes *)

Inductive exn : Type :=
| KeyError
| AttributeError
| OverflowError
| TypeError.

Inductive result (A : Type) : Type :=
| Ok (a : A)
| Raise (e : exn).
Arguments Ok {A} a.
Arguments Raise {A} e.

(** ** Dates *)

Definition datetime := Z.
Definition timedelta := Z.

(** What [dateutil.parser.parse] does with a text: a date, the
    [ValueError] that [parse_log_entry] catches, or another exception. *)
Inductive dt_parse : Type :=
| DtOk (t : datetime)
| DtValueError
| DtOther (e : exn).

(** The first component of what [parse_log_entry] returns: a [datetime],
    or the raw text between the brackets when that text is no date. *)
Inductive stamp : Type :=
| TsDate (t : datetime)
| TsRaw (s : str).

(** ** parser.py: parse_log_entry *)

Section Parser.

Variable parse_datetime : str -> dt_parse.

(** [now] is the value [datetime.now()] has when the last line of the
    function reads it.  [Ok (None, None)] is the pair [(None, None)]
    returned for a blank line.  Inside the bracket branch [find] cannot
    miss, since ["]" in entry] holds there. *)
Definition parse_log_entry (now : datetime) (entry : str)
  : result (option stamp * option str) :=
  let entry := strip entry in
  match entry with
  | [] => Ok (None, None)
  | _ =>
      if startswith lbracket entry && contains_char rbracket entry then
        match find rbracket entry with
        | Some end_bracket_index =>
            let timestamp_str := slice 1 end_bracket_index entry in
            let message := strip (slice_from (end_bracket_index + 1) entry) in
            match parse_datetime timestamp_str with
            | DtOk timestamp => Ok (Some (TsDate timestamp), Some message)
            | DtValueError => Ok (Some (TsRaw timestamp_str), Some message)
            | DtOther e => Raise e
            end
        | None => Ok (Some (TsDate now), Some entry)
        end
      else Ok (Some (TsDate now), Some entry)
  end.

End Parser.

(** ** Paths *)

(** A [pathlib.Path]: the directory part and the final component. *)
Record Path : Type := mkPath { parent : list str; name : str }.

Class EqDec (K : Type) : Type :=
  eq_dec : forall a b : K, {a = b} + {a <> b}.

#[export] Instance str_EqDec : EqDec str := str_eq_dec.

#[export] Instance Path_EqDec : EqDec Path.
Proof.
  intros [p1 n1] [p2 n2].
  destruct (list_eq_dec str_eq_dec p1 p2) as [Hp | Hp].
  - destruct (str_eq_dec n1 n2) as [Hn | Hn].
    + left. congruence.
    + right. congruence.
  - right. congruence.
Defined.

Definition dot : char := 46%N.

(** [s.rfind(c)]; [None] stands for [-1]. *)
Fixpoint rfind (c : char) (s : str) : option nat :=
  match s with
  | [] => None
  | d :: r =>
      match rfind c r with
      | Some i => Some (S i)
      | None => if N.eqb d c then Some O else None
      end
  end.

(** [p.stem]: the final component without its last suffix
    ([i = name.rfind('.')]; the suffix is cut when [0 < i < len(name) - 1]). *)
Definition stem (p : Path) : str :=
  match rfind dot (name p) with
  | Some i =>
      if (0 <? i)%nat && (i <? length (name p) - 1)%nat
      then firstn i (name p)
      else name p
  | None => name p
  end.

(** ** Dictionaries, in insertion order *)

Section Dict.

Context {K V : Type} `{EqDec K}.

Definition dict : Type := list (K * V).

(** [d.get(k)] *)
Fixpoint get (d : dict) (k : K) : option V :=
  match d with
  | [] => None
  | (k', v) :: r => if eq_dec k' k then Some v else get r k
  end.

(** [k in d] *)
Definition mem (d : dict) (k : K) : bool :=
  match get d k with
  | Some _ => true
  | None => false
  end.

(** [d[k] = v]: an existing key keeps its place, a new one goes last. *)
Fixpoint set (d : dict) (k : K) (v : V) : dict :=
  match d with
  | [] => [(k, v)]
  | (k', v') :: r =>
      if eq_dec k' k then (k', v) :: r else (k', v') :: set r k v
  end.

(** [del d[k]] / [d.pop(k, None)] *)
Definition del (d : dict) (k : K) : dict :=
  filter (fun kv => if eq_dec (fst kv) k then false else true) d.

(** The keys of a Python dict are pairwise distinct. *)
Definition wf (d : dict) : Prop := NoDup (map fst d).

End Dict.

Arguments dict K V : clear implicits.

(** ** The cache *)

(** A cache record is a Python dict with the keys ["count"] and
    ["first_seen"]; [None] stands for a key that is missing. *)
Record CacheRecord : Type :=
  mkRecord { count : option Z; first_seen : option datetime }.

(** Truth value of the record as a dict: true unless it is empty. *)
Definition truthy (r : CacheRecord) : bool :=
  match count r, first_seen r with
  | None, None => false
  | _, _ => true
  end.

Definition Bucket := dict str CacheRecord.
Definition CacheTree := dict Path Bucket.

(** ** Effects *)

(** What a thread does to the outside: taking and releasing the cache
    lock, and appending a line to an output file. *)
Inductive event : Type :=
| Acquire
| Release
| Write (destination : Path) (line : str).

Record world : Type :=
  mkWorld { cache_map : CacheTree; trace : list event }.

Definition emit (w : world) (evs : list event) : world :=
  {| cache_map := cache_map w; trace := trace w ++ evs |}.

Definition with_cache (w : world) (cm : CacheTree) : world :=
  {| cache_map := cm; trace := trace w |}.

(** Normal completion, or an exception escaping with the state it left. *)
Inductive outcome : Type :=
| Done (w : world)
| Crash (e : exn) (w : world).

Definition world_of (o : outcome) : world :=
  match o with
  | Done w => w
  | Crash _ w => w
  end.

(** The lines appended to output files, in order. *)
Fixpoint writes (tr : list event) : list (Path * str) :=
  match tr with
  | [] => []
  | Write d l :: r => (d, l) :: writes r
  | _ :: r => writes r
  end.

(** ** files.py: dump_log_to_file *)

Definition agg_suffix : str := s2l "-agg.log".

Definition destination_of (source_file : Path) : Path :=
  {| parent := parent source_file;
     name := stem source_file ++ agg_suffix |}.

(** The line [f"[{timestamp}] " + message + "\n"] appended to the
    sibling [<stem>-agg.log]. *)
Definition dump_log_to_file (source_file : Path) (timestamp message : str)
  : event :=
  Write (destination_of source_file)
        (s2l "[" ++ timestamp ++ s2l "] " ++ message ++ [10%N]).

(** ** parser.py: process_log, files.py: tail_file, prune.py: prune_once *)

Section Engine.

Variable parse_datetime : str -> dt_parse.

(** [t.strftime("%Y-%m-%d %H:%M:%S")] *)
Variable strftime : datetime -> str.

(** [cache[message]["count"] += 1] *)
Definition increment_count (cache : Bucket) (message : str)
  : result (Bucket * list event) :=
  match get cache message with
  | None => Raise KeyError
  | Some r =>
      match count r with
      | None => Raise KeyError
      | Some c =>
          Ok (set cache message
                  {| count := Some (c + 1); first_seen := first_seen r |},
              [])
      end
  end.

(** [process_log(cache, source_file, message, agg_window)], called by
    the Tailer for a message that is in the bucket; [current_time] is
    its [datetime.now()].  It returns the bucket as it leaves it and the
    lines it writes; every exception it can raise comes before any
    effect. *)
Definition process_log (cache : Bucket) (source_file : Path)
           (message : str) (agg_window : timedelta)
           (current_time : datetime) : result (Bucket * list event) :=
  match get cache message with
  | Some log_data =>
      if truthy log_data then
        match first_seen log_data with
        | None => Raise KeyError
        | Some fs =>
            if agg_window <=? current_time - fs then
              match count log_data with
              | None => Raise KeyError
              | Some c =>
                  let modified :=
                    message ++ s2l " (occured " ++ str_of_int c
                            ++ s2l " times)" in
                  Ok (del cache message,
                      if 1 <=? c
                      then [dump_log_to_file source_file
                              (strftime current_time) modified]
                      else [])
              end
            else increment_count cache message
        end
      else increment_count cache message
  | None => increment_count cache message
  end.

(** One line read by [tail_file]. [parse_time] is the clock inside
    [parse_log_entry], [observe_time] the clock read afterwards (by
    [process_log], or for [first_seen]). *)
Record arrival : Type :=
  mkArrival { line : str; parse_time : datetime; observe_time : datetime }.

(** [cache_map.setdefault(file_path, {})], under the lock. *)
Definition setdefault_bucket (file_path : Path) (w : world)
  : Bucket * world :=
  let cache :=
    match get (cache_map w) file_path with
    | Some b => b
    | None => []
    end in
  (cache,
   emit (with_cache w (set (cache_map w) file_path cache))
        [Acquire; Release]).

(** The body of the loop of [tail_file] for one line that was read. *)
Definition tail_line (file_path : Path) (agg_interval : timedelta)
           (a : arrival) (w : world) : outcome :=
  match parse_log_entry parse_datetime (parse_time a) (line a) with
  | Raise e => Crash e w
  | Ok (timestamp, message) =>
      match message with
      | None => Done w
      | Some [] => Done w
      | Some message =>
          let '(cache, w1) := setdefault_bucket file_path w in
          if mem cache message then
            match process_log cache file_path message agg_interval
                              (observe_time a) with
            | Ok (cache', evs) =>
                Done (emit (with_cache w1
                              (set (cache_map w1) file_path cache')) evs)
            | Raise e => Crash e w1
            end
          else
            match timestamp with
            | Some (TsDate t) =>
                let w2 :=
                  emit w1 [dump_log_to_file file_path (strftime t) message] in
                Done (with_cache w2
                        (set (cache_map w2) file_path
                             (set cache message
                                  {| count := Some 1;
                                     first_seen := Some (observe_time a) |})))
            | _ => Crash AttributeError w1
            end
      end
  end.

(** [tail_file] on the lines it reads, in order: any exception ends the
    thread ([except Exception: ... finally: ...]). *)
Fixpoint tail_file (file_path : Path) (agg_interval : timedelta)
         (lines : list arrival) (w : world) : outcome :=
  match lines with
  | [] => Done w
  | a :: rest =>
      match tail_line file_path agg_interval a w with
      | Done w' => tail_file file_path agg_interval rest w'
      | Crash e w' => Crash e w'
      end
  end.

(** *** The Pruner *)

(** The test of the scanning loop of [prune_once]. *)
Definition qualifies (dt_window : timedelta) (now : datetime)
           (data : CacheRecord) : bool :=
  match first_seen data with
  | None => true
  | Some fs => dt_window <? now - fs
  end.

Definition scan_bucket (dt_window : timedelta) (now : datetime)
           (path : Path) (cache : Bucket)
  : list (Path * str * CacheRecord) :=
  map (fun md => (path, fst md, snd md))
      (filter (fun md => qualifies dt_window now (snd md)) cache).

(** The list [to_remove] at the end of the scan. *)
Definition scan (dt_window : timedelta) (now : datetime) (cm : CacheTree)
  : list (Path * str * CacheRecord) :=
  flat_map (fun pc => scan_bucket dt_window now (fst pc) (snd pc)) cm.

(** What the removal loop does with one popped value. *)
Definition report (now : datetime) (path : Path) (msg : str)
           (removed : option CacheRecord) : list event :=
  match removed with
  | Some r =>
      if truthy r then
        let cnt := match count r with Some c => c | None => 0 end in
        if 1 <? cnt
        then [dump_log_to_file path (strftime now)
                (msg ++ s2l " (occurred " ++ str_of_int cnt ++ s2l " times)")]
        else []
      else []
  | None => []
  end.

(** The loop [for path, msg, data in to_remove]. *)
Fixpoint remove_loop (now : datetime)
         (to_remove : list (Path * str * CacheRecord)) (w : world)
  : outcome :=
  match to_remove with
  | [] => Done w
  | (path, msg, _) :: rest =>
      match get (cache_map w) path with
      | None => Crash KeyError w
      | Some cache =>
          let removed := get cache msg in
          let w1 := with_cache w (set (cache_map w) path (del cache msg)) in
          remove_loop now rest (emit w1 (report now path msg removed))
      end
  end.

(** [CachePruner.prune_once]; [now] is its [datetime.now()].  Both loops
    are inside [with self.lock]. *)
Definition prune_once (dt_window : timedelta) (now : datetime) (w : world)
  : outcome :=
  let w0 := emit w [Acquire] in
  let to_remove := scan dt_window now (cache_map w0) in
  match remove_loop now to_remove w0 with
  | Done w' => Done (emit w' [Release])
  | Crash e w' => Crash e (emit w' [Release])
  end.

End Engine.

(** ** files.py: discover_files *)

Section Discovery.

(** [glob.glob(pattern, recursive=True)] on the file system as it is. *)
Variable glob : str -> list str.

(** [Path(file).resolve()] *)
Variable resolve : str -> Path.

Definition agg_marker : str := s2l "-agg".

Definition discover_files (patterns : list str) : list Path :=
  flat_map
    (fun pattern =>
       filter (fun p => negb (contains agg_marker (stem p)))
              (map resolve (glob pattern)))
    patterns.

End Discovery.

(** ** Threads

    The Tailers and the Pruner run as threads over the one cache.  A step
    of a thread is a piece of its code that runs without interruption:
    what is inside [with lock] is one step (the lock excludes the other
    lock holders), and the statements of [tail_file] that follow its
    [with] block are steps of their own, since no lock is held there.  A
    schedule says which thread moves next. *)

(** Where a Tailer stands in the loop body of [tail_file], for a line it
    has read and parsed. *)
Inductive pc : Type :=
| AtSetdefault   (* with cache_map_lock: cache = cache_map.setdefault(..) *)
| AtMembership   (* if message in cache: *)
| AtProcessLog   (*     process_log(..) *)
| AtDump         (* else: dump_log_to_file(..) *)
| AtInsert       (*       cache[message] = {..} *)
| Finished
| Failed (e : exn).

Inductive thread : Type :=
| Tailer (file_path : Path) (agg_interval : timedelta)
         (timestamp : option stamp) (message : str) (now : datetime)
         (at_ : pc)
| Pruner (dt_window : timedelta) (now : datetime) (swept : bool).

(** The bucket object the variable [cache] of a Tailer refers to. *)
Definition bucket_of (w : world) (file_path : Path) : Bucket :=
  match get (cache_map w) file_path with
  | Some b => b
  | None => []
  end.

Section Threads.

Variable strftime : datetime -> str.

Definition step_tailer (file_path : Path) (agg_interval : timedelta)
           (timestamp : option stamp) (message : str) (now : datetime)
           (at_ : pc) (w : world) : pc * world :=
  match at_ with
  | AtSetdefault => (AtMembership, snd (setdefault_bucket file_path w))
  | AtMembership =>
      (if mem (bucket_of w file_path) message
       then AtProcessLog else AtDump, w)
  | AtProcessLog =>
      match process_log strftime (bucket_of w file_path) file_path message
                        agg_interval now with
      | Ok (cache', evs) =>
          (Finished,
           emit (with_cache w (set (cache_map w) file_path cache')) evs)
      | Raise e => (Failed e, w)
      end
  | AtDump =>
      match timestamp with
      | Some (TsDate t) =>
          (AtInsert,
           emit w [dump_log_to_file file_path (strftime t) message])
      | _ => (Failed AttributeError, w)
      end
  | AtInsert =>
      (Finished,
       with_cache w
         (set (cache_map w) file_path
              (set (bucket_of w file_path) message
                   {| count := Some 1; first_seen := Some now |})))
  | Finished => (Finished, w)
  | Failed e => (Failed e, w)
  end.

Definition step (t : thread) (w : world) : thread * world :=
  match t with
  | Tailer file_path agg_interval timestamp message now at_ =>
      let '(at', w') :=
        step_tailer file_path agg_interval timestamp message now at_ w in
      (Tailer file_path agg_interval timestamp message now at', w')
  | Pruner dt_window now false =>
      (Pruner dt_window now true,
       world_of (prune_once strftime dt_window now w))
  | Pruner dt_window now true => (t, w)
  end.

(** The thread numbered [i] makes a step. *)
Fixpoint step_nth (i : nat) (ts : list thread) (w : world)
  : list thread * world :=
  match ts, i with
  | [], _ => ([], w)
  | t :: rest, O => let '(t', w') := step t w in (t' :: rest, w')
  | t :: rest, S j =>
      let '(rest', w') := step_nth j rest w in (t :: rest', w')
  end.

Fixpoint run (schedule : list nat) (ts : list thread) (w : world)
  : list thread * world :=
  match schedule with
  | [] => (ts, w)
  | i :: later =>
      let '(ts', w') := step_nth i ts w in run later ts' w'
  end.

(** A Tailer running with no other thread moving: four steps take it
    to the end of either branch. *)
Definition run_alone (file_path : Path) (agg_interval : timedelta)
           (timestamp : option stamp) (message : str) (now : datetime)
           (w : world) : pc * world :=
  let go := step_tailer file_path agg_interval timestamp message now in
  let '(p1, w1) := go AtSetdefault w in
  let '(p2, w2) := go p1 w1 in
  let '(p3, w3) := go p2 w2 in
  go p3 w3.

End Threads.

(** ** prune.py: the loop of the Pruner thread *)

Section Worker.

Variable strftime : datetime -> str.

(** [CachePruner._worker]: as long as waiting for the stop event times
    out, sweep.  [nows] are the readings of the clock by the sweeps made
    until the stop event is set; an exception would end the thread. *)
Fixpoint _worker (dt_window : timedelta) (nows : list datetime) (w : world)
  : outcome :=
  match nows with
  | [] => Done w
  | now :: later =>
      match prune_once strftime dt_window now w with
      | Done w' => _worker dt_window later w'
      | Crash e w' => Crash e w'
      end
  end.

End Worker.

(** ** main.py: one round of the supervising loop *)

(** A [threading.Thread] object: threads are numbered in the order in
    which they are started. *)
Definition handle := nat.

(** The dictionary [threads] of [main], and every [thread.start()] made so
    far, oldest first. *)
Record supervisor : Type :=
  mkSupervisor { threads : dict Path handle; started : list (Path * handle) }.

Section Supervisor.

(** [thread.is_alive()], as it answers during the round. *)
Variable is_alive : handle -> bool.

(** The body of [for file_path in discovered_files]. *)
Definition start_one (sup : supervisor) (file_path : Path) : supervisor :=
  let missing_or_dead :=
    match get (threads sup) file_path with
    | None => true
    | Some t => negb (is_alive t)
    end in
  if missing_or_dead then
    let thread := length (started sup) in
    {| threads := set (threads sup) file_path thread;
       started := started sup ++ [(file_path, thread)] |}
  else sup.

Definition start_missing (discovered_files : list Path) (sup : supervisor)
  : supervisor :=
  fold_left start_one discovered_files sup.

(** [p in l] *)
Definition in_list (p : Path) (l : list Path) : bool :=
  existsb (fun q => if eq_dec q p then true else false) l.

(** [set(threads.keys()) - set(discovered_files)], listed in the order of
    the keys of [threads]. *)
Definition stale_files (sup : supervisor) (discovered_files : list Path)
  : list Path :=
  filter (fun p => negb (in_list p discovered_files)) (map fst (threads sup)).

(** The body of [for file_path in stale_files]: forget the thread, and
    under the lock delete the bucket of the file if there is one. *)
Definition drop_one (st : supervisor * world) (file_path : Path)
  : supervisor * world :=
  let sup := fst st in
  let w := snd st in
  ({| threads := del (threads sup) file_path; started := started sup |},
   emit (with_cache w
           (if mem (cache_map w) file_path
            then del (cache_map w) file_path
            else cache_map w))
        [Acquire; Release]).

Definition drop_stale (stale : list Path) (st : supervisor * world)
  : supervisor * world :=
  fold_left drop_one stale st.

(** One round of [while True] in [main], after [discover_files] and
    before the sleep. *)
Definition main_round (discovered_files : list Path) (sup : supervisor)
           (w : world) : supervisor * world :=
  let sup1 := start_missing discovered_files sup in
  drop_stale (stale_files sup1 discovered_files) (sup1, w).

End Supervisor.

(** ** config.py: the defaults and their merge with the configuration file *)

Local Unset Elimination Schemes.

(** A value loaded from YAML (or written in [DEFAULT_CONFIGS]). *)
Inductive yaml : Type :=
| YNull
| YBool (b : bool)
| YInt (n : Z)
| YFloat (x : Q)
| YStr (s : str)
| YSeq (items : list yaml).

Local Set Elimination Schemes.

(** A configuration mapping; the option names are strings. *)
Definition Config := dict str yaml.

Definition DEFAULT_CONFIGS : Config :=
  [ (s2l "source-files", YSeq [YStr (s2l "examples/service_*/*.log")]);
    (s2l "agg-interval", YInt 20);
    (s2l "log-level", YStr (s2l "INFO"));
    (s2l "prune-interval", YFloat (5 # 1));
    (s2l "time-wait", YFloat (1 # 2));
    (s2l "console-log", YBool true);
    (s2l "output-log", YBool false);
    (s2l "output-path", YStr (s2l "./app-logs/gcp-transformer.log")) ].

(** [{**defaults, **config_data}] *)
Definition merge_configs (defaults config_data : Config) : Config :=
  fold_left (fun merged kv => set merged (fst kv) (snd kv)) config_data defaults.

(** The keys that [parse_options] reads from the merged mapping. *)
Definition option_keys : list str :=
  [ s2l "source-files"; s2l "agg-interval"; s2l "log-level";
    s2l "prune-interval"; s2l "time-wait"; s2l "console-log";
    s2l "output-log"; s2l "output-path" ].

(** ** Vocabulary of the statements *)

(** The record stored for a message of a file, if any. *)
Definition lookup (cm : CacheTree) (p : Path) (m : str) : option CacheRecord :=
  match get cm p with
  | Some b => get b m
  | None => None
  end.

(** Every bucket, and the tree itself, has pairwise distinct keys. *)
Definition wf_tree (cm : CacheTree) : Prop :=
  wf cm /\ Forall (fun pc => wf (snd pc)) cm.

(** A line that is only a bracketed text: [[ts]] followed by nothing but
    whitespace. *)
Definition bracket_only (e : str) : bool :=
  startswith lbracket e &&
  match find rbracket e with
  | Some i => forallb isspace (slice_from (i + 1) e)
  | None => false
  end.

(** The file and message of an entry of [to_remove]. *)
Definition key (x : Path * str * CacheRecord) : Path * str :=
  (fst (fst x), snd (fst x)).

(** What the removal loop of [prune_once] writes for a list of entries
    whose records are the ones it pops. *)
Definition reports (strftime : datetime -> str) (now : datetime)
           (l : list (Path * str * CacheRecord)) : list event :=
  flat_map (fun x => report strftime now (fst (fst x)) (snd (fst x))
                            (Some (snd x))) l.

Definition is_write (e : event) : bool :=
  match e with
  | Write _ _ => true
  | _ => false
  end.

(** No line is written between an [Acquire] and the next [Release];
    [held] tells whether the lock is held at the start. *)
Fixpoint no_write_while_held (held : bool) (tr : list event) : bool :=
  match tr with
  | [] => true
  | Acquire :: r => no_write_while_held true r
  | Release :: r => no_write_while_held false r
  | Write _ _ :: r => negb held && no_write_while_held held r
  end.

(** The line that arrives carries [message], inside the window that
    opened at [fs]. *)
Definition repeats (parse_datetime : str -> dt_parse)
           (agg_interval : timedelta) (message : str)
           (fs : datetime) (a : arrival) : Prop :=
  (exists ts, parse_log_entry parse_datetime (parse_time a) (line a)
              = Ok (ts, Some message))
  /\ observe_time a - fs < agg_interval.

(** The file is tracked by a thread started not before the [n]th start. *)
Definition tracked_since (n : nat) (p : Path) (sup : supervisor) : Prop :=
  exists t, get (threads sup) p = Some t
            /\ In (p, t) (started sup)
            /\ (n <= t)%nat.

(** [n] steps of a Tailer with no other thread moving in between. *)
Fixpoint steps_alone (strftime : datetime -> str)
         (file_path : Path) (agg_interval : timedelta)
         (timestamp : option stamp) (message : str) (now : datetime)
         (n : nat) (st : pc * world) : pc * world :=
  match n with
  | O => st
  | S k =>
      steps_alone strftime file_path agg_interval timestamp message now k
        (step_tailer strftime file_path agg_interval timestamp message now
                     (fst st) (snd st))
  end.

(** Every thread but the one numbered [i] is a Tailer of a file other
    than [file_path]. *)
Definition others_elsewhere (file_path : Path) (i : nat) (ts : list thread)
  : Prop :=
  forall j t,
    j <> i ->
    nth_error ts j = Some t ->
    exists g agg stamp_ msg now_ at_,
      t = Tailer g agg stamp_ msg now_ at_ /\ g <> file_path.


(** A record with both its keys. *)
Definition complete_record (d : CacheRecord) : Prop :=
  exists c fs, d = mkRecord (Some c) (Some fs).

Definition complete_bucket (cache : Bucket) : Prop :=
  Forall (fun md => complete_record (snd md)) cache.

(** Every record of every bucket of the cache has a count and a
    first_seen. *)
Definition complete_records (cm : CacheTree) : Prop :=
  Forall (fun pc => complete_bucket (snd pc)) cm.

(** The states of the cache and of the output that the program can be in:
    it starts with an empty cache; a Tailer reads a line, the Pruner
    sweeps, [main] makes a round, or a thread makes one of its steps. *)
Inductive reachable : world -> Prop :=
| reach_start : reachable (mkWorld [] [])
| reach_line (parse_datetime : str -> dt_parse) (strftime : datetime -> str)
             (file_path : Path) (agg_interval : timedelta) (a : arrival)
             (w : world) :
    reachable w ->
    reachable (world_of (tail_line parse_datetime strftime file_path
                                   agg_interval a w))
| reach_sweep (strftime : datetime -> str) (dt_window : timedelta)
              (now : datetime) (w : world) :
    reachable w ->
    reachable (world_of (prune_once strftime dt_window now w))
| reach_round (is_alive : handle -> bool) (discovered_files : list Path)
              (sup : supervisor) (w : world) :
    reachable w ->
    reachable (snd (main_round is_alive discovered_files sup w))
| reach_step (strftime : datetime -> str) (t : thread) (w : world) :
    reachable w ->
    reachable (snd (step strftime t w)).

(** ** Sample data *)

Module Sample.

(** A date parser that knows one date. *)
Definition parse_datetime (s : str) : dt_parse :=
  if str_eq_dec s (s2l "2024-01-01 10:00:00") then DtOk 1000 else DtValueError.

(** Dates are printed as their tick count. *)
Definition strftime (t : datetime) : str := str_of_int t.

Definition app_log : Path := mkPath [s2l "logs"] (s2l "app.log").
Definition app_agg_log : Path := mkPath [s2l "logs"] (s2l "app-agg.log").

(** A directory [logs] holding [app.log] and the output [app-agg.log]. *)
Definition glob (pattern : str) : list str :=
  if str_eq_dec pattern (s2l "logs/*.log")
  then [s2l "logs/app.log"; s2l "logs/app-agg.log"]
  else [].

Definition resolve (file : str) : Path :=
  if str_eq_dec file (s2l "logs/app.log") then app_log
  else if str_eq_dec file (s2l "logs/app-agg.log") then app_agg_log
  else mkPath [] file.

Definition empty_world : world := mkWorld [] [].

Definition web_log : Path := mkPath [s2l "logs"] (s2l "web.log").

(** A line without brackets read at time [t]. *)
Definition plain (text : string) (t : datetime) : arrival :=
  mkArrival (s2l text) t t.

(** One bucket for [app.log] holding one record for the message [m]. *)
Definition one_record (r : CacheRecord) : world :=
  mkWorld [(app_log, [(s2l "m", r)])] [].

(** One bucket for [app.log] holding records for the messages [m] and
    [n]. *)
Definition two_records (r1 r2 : CacheRecord) : world :=
  mkWorld [(app_log, [(s2l "m", r1); (s2l "n", r2)])] [].

End Sample.

(** * Properties *)

(** ** Dictionaries *)

Section DictFacts.

Context {K V : Type} `{EqDec K}.

Implicit Types (d : dict K V) (k : K) (v : V).

Lemma get_set_same d k v : get (set d k v) k = Some v.
Proof.
  induction d as [| [k' v'] r IH]; simpl.
  - destruct (eq_dec k k); congruence.
  - destruct (eq_dec k' k) as [E | E]; simpl.
    + destruct (eq_dec k' k); congruence.
    + destruct (eq_dec k' k); congruence.
Qed.

Lemma get_set_other d k k' v : k <> k' -> get (set d k v) k' = get d k'.
Proof.
  intros Hne.
  induction d as [| [k0 v0] r IH]; simpl.
  - destruct (eq_dec k k'); congruence.
  - destruct (eq_dec k0 k) as [E | E]; simpl.
    + subst k0. destruct (eq_dec k k'); congruence.
    + destruct (eq_dec k0 k'); congruence.
Qed.

Lemma get_del_same d k : get (del d k) k = None.
Proof.
  induction d as [| [k0 v0] r IH]; simpl; [reflexivity |].
  destruct (eq_dec k0 k) as [E | E]; simpl; [assumption |].
  destruct (eq_dec k0 k); congruence.
Qed.

Lemma get_del_other d k k' : k <> k' -> get (del d k) k' = get d k'.
Proof.
  intros Hne.
  induction d as [| [k0 v0] r IH]; simpl; [reflexivity |].
  destruct (eq_dec k0 k) as [E | E]; simpl.
  - subst k0. destruct (eq_dec k k'); congruence.
  - destruct (eq_dec k0 k'); congruence.
Qed.

Lemma get_In d k v : get d k = Some v -> In (k, v) d.
Proof.
  induction d as [| [k0 v0] r IH]; simpl; [discriminate |].
  destruct (eq_dec k0 k) as [E | E]; intros Hg.
  - left. congruence.
  - right. auto.
Qed.

Lemma In_get d k v : wf d -> In (k, v) d -> get d k = Some v.
Proof.
  unfold wf.
  induction d as [| [k0 v0] r IH]; simpl; [tauto |].
  intros Hnd [Heq | Hin].
  - inversion Heq; subst. destruct (eq_dec k k); congruence.
  - inversion Hnd as [| ? ? Hnotin Hnd']; subst.
    destruct (eq_dec k0 k) as [E | E].
    + subst k0. exfalso. apply Hnotin.
      change k with (fst (k, v)). apply in_map. assumption.
    + auto.
Qed.

Lemma mem_true_iff d k : mem d k = true <-> exists v, get d k = Some v.
Proof.
  unfold mem. destruct (get d k) as [v |].
  - split; eauto.
  - split; [discriminate | intros [v Hv]; discriminate].
Qed.

Lemma mem_false_iff d k : mem d k = false <-> get d k = None.
Proof.
  unfold mem. destruct (get d k); split; congruence.
Qed.

Lemma set_keys_in d k v : get d k <> None -> map fst (set d k v) = map fst d.
Proof.
  induction d as [| [k0 v0] r IH]; simpl; [congruence |].
  destruct (eq_dec k0 k) as [E | E]; simpl; intros Hg.
  - reflexivity.
  - f_equal. auto.
Qed.

Lemma set_keys_new d k v : get d k = None -> map fst (set d k v) = map fst d ++ [k].
Proof.
  induction d as [| [k0 v0] r IH]; simpl; [reflexivity |].
  destruct (eq_dec k0 k) as [E | E]; simpl; intros Hg.
  - discriminate.
  - f_equal. auto.
Qed.

Lemma get_None_notin d k : get d k = None -> ~ In k (map fst d).
Proof.
  induction d as [| [k0 v0] r IH]; simpl; [tauto |].
  destruct (eq_dec k0 k) as [E | E]; [discriminate |].
  intros Hg [Heq | Hin]; [congruence | exact (IH Hg Hin)].
Qed.

Lemma wf_set d k v : wf d -> wf (set d k v).
Proof.
  unfold wf. intros Hwf.
  destruct (get d k) as [v0 |] eqn:Hg.
  - rewrite set_keys_in by congruence. assumption.
  - rewrite set_keys_new by assumption.
    apply NoDup_app; [assumption | repeat constructor; simpl; tauto |].
    intros a Ha [Hk | []]. subst a.
    exact (get_None_notin d k Hg Ha).
Qed.

Lemma wf_del d k : wf d -> wf (del d k).
Proof.
  unfold wf, del.
  induction d as [| [k0 v0] r IH]; simpl; [auto |].
  intros Hnd. inversion Hnd as [| ? ? Hnotin Hnd']; subst.
  destruct (eq_dec k0 k) as [E | E]; simpl; [auto |].
  constructor; [| auto].
  intros Hin. apply Hnotin.
  apply in_map_iff in Hin. destruct Hin as [[k1 v1] [Hk Hin]].
  apply filter_In in Hin. destruct Hin as [Hin _].
  simpl in Hk; subst k1. change k0 with (fst (k0, v1)).
  apply in_map. assumption.
Qed.

End DictFacts.

(** ** Strings and paths *)

Lemma lstrip_nil_iff (s : str) : lstrip s = [] <-> forallb isspace s = true.
Proof.
  induction s as [| c r IH]; simpl; [tauto |].
  destruct (isspace c); simpl; [assumption |].
  split; discriminate.
Qed.

Lemma lstrip_all_space (s : str) : forallb isspace (lstrip s) = true -> lstrip s = [].
Proof.
  induction s as [| c r IH]; simpl; [reflexivity |].
  destruct (isspace c) eqn:Hc; [assumption |].
  simpl. rewrite Hc. discriminate.
Qed.

Lemma forallb_rev {A} (f : A -> bool) (l : list A) :
  forallb f (rev l) = forallb f l.
Proof.
  induction l as [| a r IH]; simpl; [reflexivity |].
  rewrite forallb_app, IH. simpl. rewrite andb_true_r. apply andb_comm.
Qed.

Lemma rev_nil_iff {A} (l : list A) : rev l = [] <-> l = [].
Proof.
  split; intros Hl.
  - rewrite <- (rev_involutive l), Hl. reflexivity.
  - subst. reflexivity.
Qed.

(** [s.strip()] is empty exactly for the whitespace-only strings. *)
Lemma strip_nil_iff (s : str) : strip s = [] <-> forallb isspace s = true.
Proof.
  unfold strip, rstrip.
  split; intros Hs.
  - apply (proj1 (rev_nil_iff _)) in Hs.
    apply (proj1 (lstrip_nil_iff _)) in Hs.
    rewrite forallb_rev in Hs.
    apply lstrip_nil_iff. apply lstrip_all_space. assumption.
  - apply (proj2 (lstrip_nil_iff _)) in Hs. rewrite Hs. reflexivity.
Qed.

Lemma find_None_iff (c : char) (s : str) :
  find c s = None <-> contains_char c s = false.
Proof.
  unfold contains_char.
  induction s as [| d r IH]; simpl; [tauto |].
  rewrite (N.eqb_sym c d).
  destruct (N.eqb d c); simpl.
  - split; discriminate.
  - destruct (find c r); rewrite <- IH; split; congruence.
Qed.

Lemma rfind_app_suffix (c : char) (s t : str) (i : nat) :
  rfind c t = Some i -> rfind c (s ++ t) = Some (length s + i)%nat.
Proof.
  intros Ht. induction s as [| a r IH]; simpl; [assumption |].
  rewrite IH. reflexivity.
Qed.

(** The output file of a source has the stem [<stem>-agg]. *)
Lemma stem_destination_of (q : Path) :
  stem (destination_of q) = stem q ++ agg_marker.
Proof.
  unfold stem at 1. unfold destination_of. simpl name.
  rewrite (rfind_app_suffix dot (stem q) agg_suffix 4) by reflexivity.
  rewrite length_app.
  replace (length agg_suffix) with 8%nat by reflexivity.
  assert (H1 : (0 <? length (stem q) + 4)%nat = true)
    by (apply Nat.ltb_lt; lia).
  assert (H2 : (length (stem q) + 4 <? length (stem q) + 8 - 1)%nat = true)
    by (apply Nat.ltb_lt; lia).
  rewrite H1, H2. simpl andb. cbv iota.
  rewrite firstn_app_2. reflexivity.
Qed.

Lemma is_prefix_app (p t : str) : is_prefix p (p ++ t) = true.
Proof.
  induction p as [| a r IH]; simpl; [reflexivity |].
  rewrite N.eqb_refl. assumption.
Qed.

Lemma contains_of_prefix (p s : str) :
  is_prefix p s = true -> contains p s = true.
Proof.
  intros Hp. destruct s; simpl; rewrite Hp; reflexivity.
Qed.

Lemma contains_app (needle s t : str) :
  contains needle (s ++ needle ++ t) = true.
Proof.
  induction s as [| a r IH].
  - change ([] ++ needle ++ t) with (needle ++ t).
    apply contains_of_prefix. apply is_prefix_app.
  - simpl. rewrite IH. apply orb_true_r.
Qed.

Lemma contains_agg_destination (q : Path) :
  contains agg_marker (stem (destination_of q)) = true.
Proof.
  rewrite stem_destination_of.
  rewrite <- (app_nil_r agg_marker) at 2.
  apply contains_app.
Qed.

(** ** The line parser *)




(** ** Discovery *)

(** C10: no path returned by [discover_files] has a stem containing
    ["-agg"]; the output file [<stem>-agg.log] of any source has such a
    stem, so it is never among the discovered sources. *)
Theorem discover_files_never_agg
        (glob : str -> list str) (resolve : str -> Path)
        (patterns : list str) (p : Path) :
  In p (discover_files glob resolve patterns) ->
  contains agg_marker (stem p) = false
  /\ forall source_file, p <> destination_of source_file.
Proof.
  unfold discover_files. intros Hin.
  apply in_flat_map in Hin. destruct Hin as (pattern & _ & Hin).
  apply filter_In in Hin. destruct Hin as [_ Hstem].
  apply negb_true_iff in Hstem.
  split; [assumption |].
  intros q Heq. subst p.
  rewrite contains_agg_destination in Hstem. discriminate.
Qed.

Lemma discover_files_never_agg_witness :
  discover_files Sample.glob Sample.resolve [s2l "logs/*.log"]
  = [Sample.app_log]
  /\ contains agg_marker (stem Sample.app_log) = false
  /\ forall source_file, Sample.app_log <> destination_of source_file.
Proof.
  split; [reflexivity |].
  apply (discover_files_never_agg Sample.glob Sample.resolve
           [s2l "logs/*.log"] Sample.app_log).
  vm_compute. left. reflexivity.
Defined.

(** ** The cache tree *)

Lemma lookup_set_same (cm : CacheTree) (p : Path) (b : Bucket) (m : str) :
  lookup (set cm p b) p m = get b m.
Proof. unfold lookup. rewrite get_set_same. reflexivity. Qed.

Lemma lookup_set_other (cm : CacheTree) (p q : Path) (b : Bucket) (m : str) :
  p <> q -> lookup (set cm p b) q m = lookup cm q m.
Proof. intros Hne. unfold lookup. rewrite get_set_other by assumption. reflexivity. Qed.

Lemma writes_app (a b : list event) : writes (a ++ b) = writes a ++ writes b.
Proof.
  induction a as [| e r IH]; simpl; [reflexivity |].
  destruct e; simpl; rewrite IH; reflexivity.
Qed.

(** [setdefault] hands out the bucket of the file and changes no record. *)
Lemma setdefault_bucket_spec (file_path : Path) (w : world) :
  let cache := fst (setdefault_bucket file_path w) in
  let w1 := snd (setdefault_bucket file_path w) in
  (forall m, get cache m = lookup (cache_map w) file_path m)
  /\ get (cache_map w1) file_path = Some cache
  /\ (forall p m, lookup (cache_map w1) p m = lookup (cache_map w) p m)
  /\ trace w1 = trace w ++ [Acquire; Release].
Proof.
  unfold setdefault_bucket, lookup. simpl.
  split; [| split; [| split]].
  - intros m. destruct (get (cache_map w) file_path); reflexivity.
  - apply get_set_same.
  - intros p m. destruct (eq_dec file_path p) as [E | E].
    + subst p. rewrite get_set_same.
      destruct (get (cache_map w) file_path); reflexivity.
    + rewrite get_set_other by assumption. reflexivity.
  - reflexivity.
Qed.

(** Replacing the bucket of a file changes the records of that file only. *)
Lemma lookup_replace_bucket (cm : CacheTree) (file_path p : Path)
      (cache' : Bucket) (m : str) :
  lookup (set cm file_path cache') p m
  = if eq_dec file_path p then get cache' m else lookup cm p m.
Proof.
  destruct (eq_dec file_path p) as [E | E].
  - subst p. apply lookup_set_same.
  - apply lookup_set_other. assumption.
Qed.

Lemma pair_neq_cases (file_path p : Path) (message m : str) :
  (p, m) <> (file_path, message) -> file_path <> p \/ (file_path = p /\ message <> m).
Proof.
  intros Hne. destruct (eq_dec file_path p) as [E | E]; [| left; assumption].
  right. split; [assumption |]. intros Hm. apply Hne. congruence.
Qed.

(** The record of a message of a file is all that [set]ting it changes. *)
Lemma lookup_update_record (cm : CacheTree) (file_path : Path)
      (cache : Bucket) (message : str) (r : CacheRecord) :
  (forall m, get cache m = lookup cm file_path m) ->
  lookup (set cm file_path (set cache message r)) file_path message = Some r
  /\ forall p m, (p, m) <> (file_path, message) ->
       lookup (set cm file_path (set cache message r)) p m = lookup cm p m.
Proof.
  intros Hcache. split.
  - rewrite lookup_set_same. apply get_set_same.
  - intros p m Hne. rewrite lookup_replace_bucket.
    destruct (pair_neq_cases _ _ _ _ Hne) as [Hp | [Hp Hm]].
    + destruct (eq_dec file_path p); [contradiction | reflexivity].
    + subst p. destruct (eq_dec file_path file_path); [| congruence].
      rewrite get_set_other by assumption. apply Hcache.
Qed.

(** Likewise for deleting it. *)
Lemma lookup_delete_record (cm : CacheTree) (file_path : Path)
      (cache : Bucket) (message : str) :
  (forall m, get cache m = lookup cm file_path m) ->
  lookup (set cm file_path (del cache message)) file_path message = None
  /\ forall p m, (p, m) <> (file_path, message) ->
       lookup (set cm file_path (del cache message)) p m = lookup cm p m.
Proof.
  intros Hcache. split.
  - rewrite lookup_set_same. apply get_del_same.
  - intros p m Hne. rewrite lookup_replace_bucket.
    destruct (pair_neq_cases _ _ _ _ Hne) as [Hp | [Hp Hm]].
    + destruct (eq_dec file_path p); [contradiction | reflexivity].
    + subst p. destruct (eq_dec file_path file_path); [| congruence].
      rewrite get_del_other by assumption. apply Hcache.
Qed.

(** ** The Tailer *)

Section TailerFacts.

Variable parse_datetime : str -> dt_parse.
Variable strftime : datetime -> str.

Lemma process_log_open_window (cache : Bucket) (source_file : Path)
      (message : str) (agg_window : timedelta) (current_time : datetime)
      (c : Z) (fs : datetime) :
  get cache message = Some (mkRecord (Some c) (Some fs)) ->
  current_time - fs < agg_window ->
  process_log strftime cache source_file message agg_window current_time
  = Ok (set cache message (mkRecord (Some (c + 1)) (Some fs)), []).
Proof.
  intros Hg Hage. unfold process_log, increment_count. rewrite Hg. simpl.
  destruct (agg_window <=? current_time - fs) eqn:E; [| reflexivity].
  apply Z.leb_le in E. lia.
Qed.

Lemma process_log_closed_window (cache : Bucket) (source_file : Path)
      (message : str) (agg_window : timedelta) (current_time : datetime)
      (c : Z) (fs : datetime) :
  get cache message = Some (mkRecord (Some c) (Some fs)) ->
  agg_window <= current_time - fs ->
  process_log strftime cache source_file message agg_window current_time
  = Ok (del cache message,
        if 1 <=? c
        then [dump_log_to_file source_file (strftime current_time)
                (message ++ s2l " (occured " ++ str_of_int c ++ s2l " times)")]
        else []).
Proof.
  intros Hg Hage. unfold process_log. rewrite Hg. simpl.
  destruct (agg_window <=? current_time - fs) eqn:E; [reflexivity |].
  apply Z.leb_gt in E. lia.
Qed.

(** A line with a message that has a record goes to [process_log]. *)
Lemma tail_line_present (file_path : Path) (agg_interval : timedelta)
      (a : arrival) (w : world) (ts : option stamp) (message : str)
      (r : CacheRecord) :
  parse_log_entry parse_datetime (parse_time a) (line a)
  = Ok (ts, Some message) ->
  message <> [] ->
  lookup (cache_map w) file_path message = Some r ->
  tail_line parse_datetime strftime file_path agg_interval a w
  = match process_log strftime (fst (setdefault_bucket file_path w))
            file_path message agg_interval (observe_time a) with
    | Ok (cache', evs) =>
        Done (emit (with_cache (snd (setdefault_bucket file_path w))
                      (set (cache_map (snd (setdefault_bucket file_path w)))
                           file_path cache')) evs)
    | Raise e => Crash e (snd (setdefault_bucket file_path w))
    end.
Proof.
  intros Hp Hne Hl. unfold tail_line. rewrite Hp.
  destruct message as [| ch rest]; [congruence |].
  destruct (setdefault_bucket_spec file_path w) as (Hc & _).
  destruct (setdefault_bucket file_path w) as [cache w1]. simpl in *.
  unfold mem. rewrite Hc, Hl. reflexivity.
Qed.

(** A line with a message that has no record takes the other branch. *)
Lemma tail_line_absent (file_path : Path) (agg_interval : timedelta)
      (a : arrival) (w : world) (ts : option stamp) (message : str) :
  parse_log_entry parse_datetime (parse_time a) (line a)
  = Ok (ts, Some message) ->
  message <> [] ->
  lookup (cache_map w) file_path message = None ->
  tail_line parse_datetime strftime file_path agg_interval a w
  = let cache := fst (setdefault_bucket file_path w) in
    let w1 := snd (setdefault_bucket file_path w) in
    match ts with
    | Some (TsDate t) =>
        Done (with_cache
                (emit w1 [dump_log_to_file file_path (strftime t) message])
                (set (cache_map w1) file_path
                     (set cache message
                          (mkRecord (Some 1) (Some (observe_time a))))))
    | _ => Crash AttributeError w1
    end.
Proof.
  intros Hp Hne Hl. unfold tail_line. rewrite Hp.
  destruct message as [| ch rest]; [congruence |].
  destruct (setdefault_bucket_spec file_path w) as (Hc & _).
  destruct (setdefault_bucket file_path w) as [cache w1]. simpl in *.
  unfold mem. rewrite Hc, Hl. reflexivity.
Qed.

End TailerFacts.

(** C1 (as it fails): a record of age 7 is still in the cache when its
    message arrives again with a window of 5; the observation does not
    raise the count to 2: the record is deleted and a line is written. *)
Lemma repeat_after_window_not_counted :
  let w := Sample.one_record (mkRecord (Some 1) (Some 0)) in
  exists w',
    tail_line Sample.parse_datetime Sample.strftime Sample.app_log 5
              (Sample.plain "m" 7) w = Done w'
    /\ lookup (cache_map w) Sample.app_log (s2l "m")
       = Some (mkRecord (Some 1) (Some 0))
    /\ lookup (cache_map w') Sample.app_log (s2l "m") = None
    /\ lookup (cache_map w') Sample.app_log (s2l "m")
       <> Some (mkRecord (Some 2) (Some 0))
    /\ writes (trace w') <> [].
Proof.
  eexists. split; [vm_compute; reflexivity |].
  vm_compute. repeat split; discriminate.
Qed.

(** C1 (amended): for a line with a non-empty message and a parsed (or
    defaulted) date, the observation that finds no record writes the line
    at once and inserts [{count: 1, first_seen: now}]; an observation that
    finds a record younger than the window adds one to its count, writes
    nothing and changes nothing else. *)
Theorem tail_line_novel_then_duplicate
        (parse_datetime : str -> dt_parse) (strftime : datetime -> str)
        (file_path : Path) (agg_interval : timedelta)
        (a : arrival) (w : world) (ts : option stamp) (message : str) :
  parse_log_entry parse_datetime (parse_time a) (line a)
  = Ok (ts, Some message) ->
  message <> [] ->
  (forall t,
      ts = Some (TsDate t) ->
      lookup (cache_map w) file_path message = None ->
      exists w',
        tail_line parse_datetime strftime file_path agg_interval a w = Done w'
        /\ lookup (cache_map w') file_path message
           = Some (mkRecord (Some 1) (Some (observe_time a)))
        /\ trace w'
           = trace w ++ [Acquire; Release;
                         dump_log_to_file file_path (strftime t) message]
        /\ forall p m, (p, m) <> (file_path, message) ->
             lookup (cache_map w') p m = lookup (cache_map w) p m)
  /\
  (forall c fs,
      lookup (cache_map w) file_path message
      = Some (mkRecord (Some c) (Some fs)) ->
      observe_time a - fs < agg_interval ->
      exists w',
        tail_line parse_datetime strftime file_path agg_interval a w = Done w'
        /\ lookup (cache_map w') file_path message
           = Some (mkRecord (Some (c + 1)) (Some fs))
        /\ trace w' = trace w ++ [Acquire; Release]
        /\ forall p m, (p, m) <> (file_path, message) ->
             lookup (cache_map w') p m = lookup (cache_map w) p m).
Proof.
  intros Hp Hne.
  destruct (setdefault_bucket_spec file_path w) as (Hc & Hg1 & Hl1 & Htr).
  assert (Hcache : forall m,
             get (fst (setdefault_bucket file_path w)) m
             = lookup (cache_map (snd (setdefault_bucket file_path w)))
                      file_path m).
  { intros m. rewrite Hl1. apply Hc. }
  split.
  - intros t Hts Hl. subst ts.
    rewrite (tail_line_absent _ _ _ _ _ _ _ _ Hp Hne Hl). cbv zeta.
    eexists. split; [reflexivity |].
    unfold with_cache, emit; cbn [cache_map trace].
    destruct (lookup_update_record _ file_path _ message
                (mkRecord (Some 1) (Some (observe_time a))) Hcache)
      as [Hsame Hother].
    split; [exact Hsame |]. split.
    + rewrite Htr, <- app_assoc. reflexivity.
    + intros p m Hpm. rewrite (Hother p m Hpm). apply Hl1.
  - intros c fs Hl Hage.
    rewrite (tail_line_present _ _ _ _ _ _ _ _ _ Hp Hne Hl).
    rewrite (process_log_open_window strftime _ file_path message
               agg_interval (observe_time a) c fs)
      by (try rewrite Hc; assumption).
    eexists. split; [reflexivity |].
    unfold with_cache, emit; cbn [cache_map trace].
    destruct (lookup_update_record _ file_path _ message
                (mkRecord (Some (c + 1)) (Some fs)) Hcache)
      as [Hsame Hother].
    split; [exact Hsame |]. split.
    + rewrite Htr, app_nil_r. reflexivity.
    + intros p m Hpm. rewrite (Hother p m Hpm). apply Hl1.
Qed.

Lemma tail_line_novel_then_duplicate_witness :
  (exists w',
      tail_line Sample.parse_datetime Sample.strftime Sample.app_log 5
                (Sample.plain "m" 3) Sample.empty_world = Done w'
      /\ lookup (cache_map w') Sample.app_log (s2l "m")
         = Some (mkRecord (Some 1) (Some 3))
      /\ trace w'
         = [Acquire; Release;
            dump_log_to_file Sample.app_log (Sample.strftime 3) (s2l "m")]
      /\ forall p m, (p, m) <> (Sample.app_log, s2l "m") ->
           lookup (cache_map w') p m = None)
  /\
  (exists w',
      tail_line Sample.parse_datetime Sample.strftime Sample.app_log 5
                (Sample.plain "m" 3)
                (Sample.one_record (mkRecord (Some 1) (Some 0))) = Done w'
      /\ lookup (cache_map w') Sample.app_log (s2l "m")
         = Some (mkRecord (Some 2) (Some 0))
      /\ trace w' = [Acquire; Release]
      /\ forall p m, (p, m) <> (Sample.app_log, s2l "m") ->
           lookup (cache_map w') p m
           = lookup (cache_map (Sample.one_record (mkRecord (Some 1) (Some 0))))
                    p m).
Proof.
  split.
  - assert (Hne : s2l "m" <> []) by discriminate.
    destruct (tail_line_novel_then_duplicate
                Sample.parse_datetime Sample.strftime Sample.app_log 5
                (Sample.plain "m" 3) Sample.empty_world
                (Some (TsDate 3)) (s2l "m") eq_refl Hne) as [Hnovel _].
    exact (Hnovel 3 eq_refl eq_refl).
  - assert (Hne : s2l "m" <> []) by discriminate.
    assert (Hage : 3 - 0 < 5) by lia.
    destruct (tail_line_novel_then_duplicate
                Sample.parse_datetime Sample.strftime Sample.app_log 5
                (Sample.plain "m" 3)
                (Sample.one_record (mkRecord (Some 1) (Some 0)))
                (Some (TsDate 3)) (s2l "m") eq_refl Hne) as [_ Hdup].
    exact (Hdup 1 0 eq_refl Hage).
Defined.




(** C7 (what the code does): when the bracketed text is no date,
    [parse_log_entry] hands back the raw text; for a message without a
    record [tail_file] then calls [strftime] on that text: the
    [AttributeError] ends the thread, nothing is written, no record is
    made, and the lines behind it are never read. *)
Theorem tail_line_raw_timestamp_crashes
        (parse_datetime : str -> dt_parse) (strftime : datetime -> str)
        (file_path : Path) (agg_interval : timedelta)
        (a : arrival) (rest : list arrival) (w : world)
        (raw message : str) :
  parse_log_entry parse_datetime (parse_time a) (line a)
  = Ok (Some (TsRaw raw), Some message) ->
  message <> [] ->
  lookup (cache_map w) file_path message = None ->
  exists w',
    tail_line parse_datetime strftime file_path agg_interval a w
    = Crash AttributeError w'
    /\ tail_file parse_datetime strftime file_path agg_interval (a :: rest) w
       = Crash AttributeError w'
    /\ writes (trace w') = writes (trace w)
    /\ lookup (cache_map w') file_path message = None.
Proof.
  intros Hp Hne Hl.
  destruct (setdefault_bucket_spec file_path w) as (Hc & Hg1 & Hl1 & Htr).
  pose proof (tail_line_absent parse_datetime strftime file_path agg_interval
                a w _ _ Hp Hne Hl) as Hstep.
  cbv zeta in Hstep.
  eexists. split; [exact Hstep |]. split.
  - simpl. rewrite Hstep. reflexivity.
  - split.
    + rewrite Htr, writes_app. simpl. apply app_nil_r.
    + rewrite Hl1. assumption.
Qed.

Lemma tail_line_raw_timestamp_crashes_witness :
  exists w',
    tail_line Sample.parse_datetime Sample.strftime Sample.app_log 5
              (mkArrival (s2l "[garbled] hello") 0 0) Sample.empty_world
    = Crash AttributeError w'
    /\ tail_file Sample.parse_datetime Sample.strftime Sample.app_log 5
                 [mkArrival (s2l "[garbled] hello") 0 0;
                  mkArrival (s2l "[garbled] hello") 1 1]
                 Sample.empty_world
       = Crash AttributeError w'
    /\ writes (trace w') = []
    /\ lookup (cache_map w') Sample.app_log (s2l "hello") = None.
Proof.
  assert (Hne : s2l "hello" <> []) by discriminate.
  exact (tail_line_raw_timestamp_crashes
           Sample.parse_datetime Sample.strftime Sample.app_log 5
           (mkArrival (s2l "[garbled] hello") 0 0)
           [mkArrival (s2l "[garbled] hello") 1 1]
           Sample.empty_world (s2l "garbled") (s2l "hello")
           eq_refl Hne eq_refl).
Defined.

(** C2 (what the code does): a message seen once at time 0 and again at
    time 7, past a window of 5 and before any sweep, is reported by
    [process_log] as having "occured 1 times"; seen twice inside the
    window and again at 7 it is reported as "occured 2 times". *)
Theorem tailer_reports_single_observation :
  writes (trace (world_of
    (tail_file Sample.parse_datetime Sample.strftime Sample.app_log 5
               [Sample.plain "m" 0; Sample.plain "m" 7]
               Sample.empty_world)))
  = [(Sample.app_agg_log, s2l "[0] m" ++ [10%N]);
     (Sample.app_agg_log, s2l "[7] m (occured 1 times)" ++ [10%N])]
  /\
  writes (trace (world_of
    (tail_file Sample.parse_datetime Sample.strftime Sample.app_log 5
               [Sample.plain "m" 0; Sample.plain "m" 1; Sample.plain "m" 7]
               Sample.empty_world)))
  = [(Sample.app_agg_log, s2l "[0] m" ++ [10%N]);
     (Sample.app_agg_log, s2l "[7] m (occured 2 times)" ++ [10%N])].
Proof.
  split; vm_compute; reflexivity.
Qed.

(** ** The Pruner *)

Section PrunerFacts.

Variable strftime : datetime -> str.

Lemma report_is_write (now : datetime) (path : Path) (msg : str)
      (removed : option CacheRecord) :
  forallb is_write (report strftime now path msg removed) = true.
Proof.
  unfold report. destruct removed as [r |]; [| reflexivity].
  destruct (truthy r); [| reflexivity].
  destruct (1 <? match count r with Some c => c | None => 0 end);
    reflexivity.
Qed.

Lemma get_set_bound (cm : CacheTree) (p q : Path) (b : Bucket) :
  get cm q <> None -> get (set cm p b) q <> None.
Proof.
  intros Hq. destruct (eq_dec p q) as [E | E].
  - subst q. rewrite get_set_same. discriminate.
  - rewrite get_set_other by assumption. assumption.
Qed.

(** The removal loop ends normally when every file of its list has a
    bucket, and it only writes. *)
Lemma remove_loop_shape (now : datetime)
      (l : list (Path * str * CacheRecord)) :
  forall w,
    (forall x, In x l -> get (cache_map w) (fst (fst x)) <> None) ->
    exists w' evs,
      remove_loop strftime now l w = Done w'
      /\ trace w' = trace w ++ evs
      /\ forallb is_write evs = true.
Proof.
  induction l as [| [[path msg] data] rest IH]; intros w Hb.
  - exists w, []. simpl. rewrite app_nil_r. auto.
  - simpl.
    destruct (get (cache_map w) path) as [cache |] eqn:Hg.
    + match goal with
      | |- context [remove_loop strftime now rest ?w1] =>
          destruct (IH w1) as (w' & evs & Hrun & Htr & Hw)
      end.
      { intros x Hx. simpl. apply get_set_bound.
        apply Hb. right. assumption. }
      exists w', (report strftime now path msg (get cache msg) ++ evs).
      split; [exact Hrun |]. split.
      * rewrite Htr. simpl. rewrite app_assoc. reflexivity.
      * rewrite forallb_app, report_is_write, Hw. reflexivity.
    + exfalso. apply (Hb (path, msg, data)); [left; reflexivity | exact Hg].
Qed.

Lemma In_get_bound (cm : CacheTree) (p : Path) (c : Bucket) :
  In (p, c) cm -> get cm p <> None.
Proof.
  induction cm as [| [p0 c0] r IH]; simpl; [tauto |].
  intros [Heq | Hin].
  - inversion Heq; subst. destruct (eq_dec p p); congruence.
  - destruct (eq_dec p0 p); [discriminate | auto].
Qed.

Lemma scan_In (dt_window : timedelta) (now : datetime) (cm : CacheTree)
      (x : Path * str * CacheRecord) :
  In x (scan dt_window now cm) <->
  exists cache,
    In (fst (fst x), cache) cm
    /\ In (snd (fst x), snd x) cache
    /\ qualifies dt_window now (snd x) = true.
Proof.
  unfold scan, scan_bucket. rewrite in_flat_map. split.
  - intros ([p c] & Hpc & Hx). simpl in Hx.
    apply in_map_iff in Hx. destruct Hx as ([m d] & Heq & Hmd).
    apply filter_In in Hmd. destruct Hmd as [Hmd Hq].
    subst x. simpl in *. exists c. auto.
  - intros (c & Hpc & Hmd & Hq). destruct x as [[p m] d]. simpl in *.
    exists (p, c). split; [assumption |]. simpl.
    apply in_map_iff. exists (m, d). split; [reflexivity |].
    apply filter_In. auto.
Qed.

End PrunerFacts.

(** C8 (as it fails): the sweep of a cache holding one expired record
    with count 3 writes its line between taking and releasing the lock. *)
Lemma prune_once_writes_while_locked :
  let w := Sample.one_record (mkRecord (Some 3) (Some 0)) in
  trace (world_of (prune_once Sample.strftime 5 10 w))
  = [Acquire;
     Write Sample.app_agg_log (s2l "[10] m (occurred 3 times)" ++ [10%N]);
     Release]
  /\ no_write_while_held false
       (trace (world_of (prune_once Sample.strftime 5 10 w))) = false.
Proof.
  vm_compute. split; reflexivity.
Qed.

(** C8 (amended): the scan, the removals and every write of a sweep are
    inside the one critical section: [prune_once] takes the lock, writes
    the aggregated lines of the records it removes, and only then releases
    the lock; it writes nothing after the release. *)
Theorem prune_once_writes_under_lock
        (strftime : datetime -> str) (dt_window : timedelta)
        (now : datetime) (w : world) :
  exists w' evs,
    prune_once strftime dt_window now w = Done w'
    /\ trace w' = trace w ++ [Acquire] ++ evs ++ [Release]
    /\ forallb is_write evs = true.
Proof.
  unfold prune_once.
  destruct (remove_loop_shape strftime now
              (scan dt_window now (cache_map (emit w [Acquire])))
              (emit w [Acquire])) as (w' & evs & Hrun & Htr & Hw).
  { intros x Hx. apply scan_In in Hx. destruct Hx as (c & Hpc & _).
    exact (In_get_bound _ _ _ Hpc). }
  rewrite Hrun. exists (emit w' [Release]), evs.
  split; [reflexivity |]. split; [| assumption].
  simpl. rewrite Htr. simpl. rewrite <- !app_assoc. reflexivity.
Qed.

Section PrunerExact.

Variable strftime : datetime -> str.

Lemma lookup_Some_inv (cm : CacheTree) (p : Path) (m : str) (d : CacheRecord) :
  lookup cm p m = Some d ->
  exists cache, get cm p = Some cache /\ get cache m = Some d.
Proof.
  unfold lookup. destruct (get cm p) as [cache |]; [| discriminate].
  intros Hg. exists cache. auto.
Qed.

(** On a list of distinct entries that are in the cache, the removal
    loop removes exactly these and reports each of them once. *)
Lemma remove_loop_spec (now : datetime)
      (l : list (Path * str * CacheRecord)) :
  forall w,
    NoDup (map key l) ->
    (forall x, In x l ->
               lookup (cache_map w) (fst (fst x)) (snd (fst x))
               = Some (snd x)) ->
    exists w',
      remove_loop strftime now l w = Done w'
      /\ trace w' = trace w ++ reports strftime now l
      /\ (forall p m, In (p, m) (map key l) ->
                      lookup (cache_map w') p m = None)
      /\ (forall p m, ~ In (p, m) (map key l) ->
                      lookup (cache_map w') p m = lookup (cache_map w) p m).
Proof.
  induction l as [| [[path msg] data] rest IH]; intros w Hnd Hin.
  - exists w. simpl. rewrite app_nil_r. repeat split; tauto.
  - inversion Hnd as [| k ks Hfresh Hnd']; subst.
    destruct (lookup_Some_inv _ _ _ _
                (Hin (path, msg, data) (or_introl eq_refl)))
      as (cache & Hg & Hgm).
    simpl in Hg, Hgm.
    assert (Hcache : forall m, get cache m = lookup (cache_map w) path m).
    { intros m. unfold lookup. rewrite Hg. reflexivity. }
    destruct (lookup_delete_record (cache_map w) path cache msg Hcache)
      as [Hsame Hother].
    simpl remove_loop. rewrite Hg, Hgm.
    match goal with
    | |- context [remove_loop strftime now rest ?w1] =>
        destruct (IH w1 Hnd') as (w' & Hrun & Htr & Hgone & Hkept)
    end.
    { intros x Hx. unfold emit, with_cache; cbn [cache_map].
      rewrite Hother; [apply Hin; right; assumption |].
      intros Heq. apply Hfresh.
      change (path, msg) with (key (path, msg, data)). unfold key at 1.
      simpl. rewrite <- Heq.
      apply (in_map key) in Hx. exact Hx. }
    exists w'. split; [exact Hrun |].
    unfold emit, with_cache in Htr, Hkept; cbn [cache_map trace] in Htr, Hkept.
    split; [| split].
    + rewrite Htr. unfold reports. simpl. rewrite app_assoc. reflexivity.
    + intros p m [Heq | Hrest].
      * unfold key in Heq. simpl in Heq. inversion Heq; subst p m.
        rewrite (Hkept path msg Hfresh). exact Hsame.
      * apply Hgone. assumption.
    + intros p m Hnot.
      assert (Hne : (p, m) <> (path, msg)).
      { intros Heq. apply Hnot. left. unfold key. simpl. congruence. }
      rewrite Hkept.
      * apply Hother. assumption.
      * intros Hrest. apply Hnot. right. assumption.
Qed.

Lemma wf_tree_bucket (cm : CacheTree) (p : Path) (cache : Bucket) :
  wf_tree cm -> In (p, cache) cm -> wf cache.
Proof.
  intros [_ Hall] Hin.
  rewrite Forall_forall in Hall. exact (Hall (p, cache) Hin).
Qed.

(** With distinct keys, [to_remove] holds exactly the records that pass
    the test of the scan. *)
Lemma scan_In_lookup (dt_window : timedelta) (now : datetime)
      (cm : CacheTree) (x : Path * str * CacheRecord) :
  wf_tree cm ->
  (In x (scan dt_window now cm) <->
   lookup cm (fst (fst x)) (snd (fst x)) = Some (snd x)
   /\ qualifies dt_window now (snd x) = true).
Proof.
  intros Hwf. rewrite scan_In. split.
  - intros (cache & Hpc & Hmd & Hq). split; [| assumption].
    unfold lookup. rewrite (In_get cm _ _ (proj1 Hwf) Hpc).
    apply In_get; [| assumption].
    exact (wf_tree_bucket cm _ _ Hwf Hpc).
  - intros [Hl Hq]. destruct (lookup_Some_inv _ _ _ _ Hl) as (cache & Hg & Hgm).
    exists cache. split; [apply get_In; assumption |].
    split; [apply get_In; assumption | assumption].
Qed.

Lemma NoDup_map_fst_filter {A B} (f : A * B -> bool) (l : list (A * B)) :
  NoDup (map fst l) -> NoDup (map fst (filter f l)).
Proof.
  induction l as [| ab r IH]; simpl; [auto |].
  intros Hnd. inversion Hnd as [| ? ? Hfresh Hnd']; subst.
  destruct (f ab); simpl; [| auto].
  constructor; [| auto].
  intros Hin. apply Hfresh.
  apply in_map_iff in Hin. destruct Hin as (y & Hy & Hin).
  apply filter_In in Hin. rewrite <- Hy. apply in_map. tauto.
Qed.

Lemma scan_bucket_keys (dt_window : timedelta) (now : datetime)
      (p : Path) (cache : Bucket) :
  map key (scan_bucket dt_window now p cache)
  = map (pair p)
        (map fst (filter (fun md => qualifies dt_window now (snd md)) cache)).
Proof.
  unfold scan_bucket. rewrite !map_map. reflexivity.
Qed.

Lemma NoDup_map_pair {A B} (a : A) (l : list B) :
  NoDup l -> NoDup (map (pair a) l).
Proof.
  induction 1 as [| b r Hfresh Hnd IH]; simpl; constructor; [| assumption].
  intros Hin. apply Hfresh.
  apply in_map_iff in Hin. destruct Hin as (y & Hy & Hin).
  inversion Hy; subst. assumption.
Qed.

Lemma scan_NoDup (dt_window : timedelta) (now : datetime) (cm : CacheTree) :
  wf_tree cm -> NoDup (map key (scan dt_window now cm)).
Proof.
  unfold wf_tree, wf.
  induction cm as [| [p cache] r IH]; simpl; intros [Hnd Hall];
    [constructor |].
  inversion Hnd as [| ? ? Hfresh Hnd']; subst.
  inversion Hall as [| ? ? Hcache Hall']; subst.
  rewrite map_app. apply NoDup_app.
  - rewrite scan_bucket_keys. apply NoDup_map_pair.
    apply NoDup_map_fst_filter. exact Hcache.
  - apply IH. split; assumption.
  - intros k Hk1 Hk2.
    rewrite scan_bucket_keys in Hk1.
    apply in_map_iff in Hk1. destruct Hk1 as (m & Hm & _).
    apply in_map_iff in Hk2. destruct Hk2 as (x & Hx & Hin).
    apply scan_In in Hin. destruct Hin as (c & Hpc & _).
    subst k. unfold key in Hx. injection Hx as Hp _.
    apply Hfresh. rewrite <- Hp.
    apply (in_map fst) in Hpc. exact Hpc.
Qed.

(** What a sweep does to a cache with distinct keys. *)
Lemma prune_once_spec (dt_window : timedelta) (now : datetime) (w : world) :
  wf_tree (cache_map w) ->
  exists w',
    prune_once strftime dt_window now w = Done w'
    /\ trace w'
       = trace w ++ [Acquire]
                 ++ reports strftime now (scan dt_window now (cache_map w))
                 ++ [Release]
    /\ forall p m,
         lookup (cache_map w') p m
         = match lookup (cache_map w) p m with
           | Some d => if qualifies dt_window now d then None else Some d
           | None => None
           end.
Proof.
  intros Hwf. unfold prune_once.
  destruct (remove_loop_spec now
              (scan dt_window now (cache_map (emit w [Acquire])))
              (emit w [Acquire]))
    as (w' & Hrun & Htr & Hgone & Hkept).
  { apply scan_NoDup. exact Hwf. }
  { intros x Hx. apply (scan_In_lookup dt_window now) in Hx; [| exact Hwf].
    tauto. }
  rewrite Hrun. exists (emit w' [Release]).
  split; [reflexivity |]. split.
  - simpl. rewrite Htr. simpl. rewrite <- !app_assoc. reflexivity.
  - intros p m. simpl cache_map in *.
    assert (Hkeys : In (p, m) (map key (scan dt_window now (cache_map w)))
                    <-> exists d, lookup (cache_map w) p m = Some d
                                  /\ qualifies dt_window now d = true).
    { rewrite in_map_iff. split.
      - intros (x & Hx & Hin).
        apply (scan_In_lookup dt_window now) in Hin; [| exact Hwf].
        unfold key in Hx. inversion Hx; subst p m. exists (snd x). exact Hin.
      - intros (d & Hl & Hq). exists (p, m, d). split; [reflexivity |].
        apply scan_In_lookup; [exact Hwf | simpl; auto]. }
    destruct (lookup (cache_map w) p m) as [d |] eqn:Hl.
    + destruct (qualifies dt_window now d) eqn:Hq.
      * apply Hgone. apply Hkeys. exists d. auto.
      * rewrite Hkept; [exact Hl |].
        intros Hin. apply Hkeys in Hin. destruct Hin as (d' & Hd' & Hq').
        congruence.
    + rewrite Hkept; [exact Hl |].
      intros Hin. apply Hkeys in Hin. destruct Hin as (d' & Hd' & _).
      discriminate.
Qed.

(** The sweep removes every record that passes the test of the scan, and
    what it writes for it is the report of that one record. *)
Lemma prune_once_removes (dt_window : timedelta) (now : datetime) (w : world)
      (p : Path) (m : str) (d : CacheRecord) :
  wf_tree (cache_map w) ->
  lookup (cache_map w) p m = Some d ->
  qualifies dt_window now d = true ->
  exists w' l1 l2,
    prune_once strftime dt_window now w = Done w'
    /\ lookup (cache_map w') p m = None
    /\ scan dt_window now (cache_map w) = l1 ++ (p, m, d) :: l2
    /\ ~ In (p, m) (map key (l1 ++ l2))
    /\ trace w'
       = trace w ++ [Acquire]
                 ++ reports strftime now l1
                 ++ report strftime now p m (Some d)
                 ++ reports strftime now l2
                 ++ [Release].
Proof.
  intros Hwf Hl Hq.
  destruct (prune_once_spec dt_window now w Hwf)
    as (w' & Hrun & Htr & Hlook).
  assert (Hin : In (p, m, d) (scan dt_window now (cache_map w))).
  { apply scan_In_lookup; [exact Hwf | simpl; auto]. }
  destruct (in_split _ _ Hin) as (l1 & l2 & Hsplit).
  exists w', l1, l2.
  split; [exact Hrun |]. split; [| split; [exact Hsplit | split]].
  - rewrite (Hlook p m), Hl, Hq. reflexivity.
  - pose proof (scan_NoDup dt_window now (cache_map w) Hwf) as Hnd.
    rewrite Hsplit, map_app in Hnd. simpl in Hnd.
    apply NoDup_remove_2 in Hnd. rewrite map_app. exact Hnd.
  - rewrite Htr, Hsplit. unfold reports. rewrite flat_map_app. simpl.
    rewrite <- !app_assoc. reflexivity.
Qed.

End PrunerExact.

Lemma wf_tree_one_record (r : CacheRecord) :
  wf_tree (cache_map (Sample.one_record r)).
Proof.
  split.
  - unfold wf. simpl. constructor; [simpl; tauto | constructor].
  - constructor; [| constructor].
    unfold wf. simpl. constructor; [simpl; tauto | constructor].
Qed.

(** C3 (as it fails): with a window of 5, a record first seen at 0 is
    still in the cache after the sweep at time 5. *)
Lemma prune_once_keeps_age_equal_window :
  let w := Sample.one_record (mkRecord (Some 1) (Some 0)) in
  5 - 0 >= 5
  /\ lookup (cache_map (world_of (prune_once Sample.strftime 5 5 w)))
            Sample.app_log (s2l "m")
     = Some (mkRecord (Some 1) (Some 0)).
Proof.
  split; [lia | vm_compute; reflexivity].
Qed.

(** C3 (amended): the sweep removes a record that has a [first_seen]
    exactly when [now - first_seen > window]; a record whose age is at
    most the window, the window itself included, is left as it is.  The
    check the Tailer makes when the message arrives again ([process_log])
    removes the record exactly when [now - first_seen >= window]. *)
Theorem eviction_threshold
        (strftime : datetime -> str) (dt_window : timedelta) (now : datetime)
        (w : world) (p : Path) (m : str) (d : CacheRecord) (fs : datetime) :
  wf_tree (cache_map w) ->
  lookup (cache_map w) p m = Some d ->
  first_seen d = Some fs ->
  (exists w',
      prune_once strftime dt_window now w = Done w'
      /\ (lookup (cache_map w') p m = None <-> dt_window < now - fs)
      /\ (now - fs <= dt_window -> lookup (cache_map w') p m = Some d))
  /\
  (forall c cache source_file,
      count d = Some c ->
      get cache m = Some d ->
      exists cache' evs,
        process_log strftime cache source_file m dt_window now
        = Ok (cache', evs)
        /\ (get cache' m = None <-> dt_window <= now - fs)).
Proof.
  intros Hwf Hl Hfs. split.
  - destruct (prune_once_spec strftime dt_window now w Hwf)
      as (w' & Hrun & _ & Hlook).
    exists w'. split; [exact Hrun |].
    rewrite (Hlook p m), Hl. unfold qualifies. rewrite Hfs.
    destruct (dt_window <? now - fs) eqn:E.
    + apply Z.ltb_lt in E. split; [tauto | intros; lia].
    + apply Z.ltb_ge in E. split; [| reflexivity].
      split; [discriminate | intros; lia].
  - intros c cache source_file Hc Hg.
    destruct d as [cnt first]. simpl in Hc, Hfs. subst cnt first.
    destruct (Z_lt_le_dec (now - fs) dt_window) as [Hage | Hage].
    + rewrite (process_log_open_window strftime cache source_file m
                 dt_window now c fs Hg Hage).
      eexists _, _. split; [reflexivity |].
      rewrite get_set_same. split; [discriminate | intros; lia].
    + rewrite (process_log_closed_window strftime cache source_file m
                 dt_window now c fs Hg Hage).
      eexists _, _. split; [reflexivity |].
      rewrite get_del_same. tauto.
Qed.

Lemma eviction_threshold_witness :
  let w := Sample.one_record (mkRecord (Some 1) (Some 0)) in
  (exists w',
      prune_once Sample.strftime 5 5 w = Done w'
      /\ (lookup (cache_map w') Sample.app_log (s2l "m") = None <-> 5 < 5 - 0)
      /\ (5 - 0 <= 5 ->
          lookup (cache_map w') Sample.app_log (s2l "m")
          = Some (mkRecord (Some 1) (Some 0))))
  /\
  (forall c cache source_file,
      Some 1 = Some c ->
      get cache (s2l "m") = Some (mkRecord (Some 1) (Some 0)) ->
      exists cache' evs,
        process_log Sample.strftime cache source_file (s2l "m") 5 5
        = Ok (cache', evs)
        /\ (get cache' (s2l "m") = None <-> 5 <= 5 - 0)).
Proof.
  intros w.
  pose proof (wf_tree_one_record (mkRecord (Some 1) (Some 0))) as Hwf.
  exact (eviction_threshold Sample.strftime 5 5 w Sample.app_log (s2l "m")
           (mkRecord (Some 1) (Some 0)) 0 Hwf eq_refl eq_refl).
Defined.

(** [prune_once] handed a record without [first_seen] and with count 3
    (no Tailer makes such a record, see [reachable_records_complete]):
    the record is removed and a line is written for it. *)
Lemma prune_once_reports_malformed_record :
  let w := Sample.one_record (mkRecord (Some 3) None) in
  lookup (cache_map (world_of (prune_once Sample.strftime 5 10 w)))
         Sample.app_log (s2l "m") = None
  /\ writes (trace (world_of (prune_once Sample.strftime 5 10 w)))
     = [(Sample.app_agg_log, s2l "[10] m (occurred 3 times)" ++ [10%N])].
Proof.
  vm_compute. split; reflexivity.
Qed.

(** [prune_once] handed a record without [first_seen]: the record is
    removed whatever its age and is treated like every other removed
    record: one aggregated line when its count is greater than 1, nothing
    when its count is 1 or less or missing. *)
Theorem prune_once_missing_first_seen
        (strftime : datetime -> str) (dt_window : timedelta) (now : datetime)
        (w : world) (p : Path) (m : str) (d : CacheRecord) :
  wf_tree (cache_map w) ->
  lookup (cache_map w) p m = Some d ->
  first_seen d = None ->
  exists w' l1 l2,
    prune_once strftime dt_window now w = Done w'
    /\ lookup (cache_map w') p m = None
    /\ scan dt_window now (cache_map w) = l1 ++ (p, m, d) :: l2
    /\ ~ In (p, m) (map key (l1 ++ l2))
    /\ trace w'
       = trace w ++ [Acquire]
                 ++ reports strftime now l1
                 ++ report strftime now p m (Some d)
                 ++ reports strftime now l2
                 ++ [Release]
    /\ report strftime now p m (Some d)
       = match count d with
         | Some c =>
             if 1 <? c
             then [dump_log_to_file p (strftime now)
                     (m ++ s2l " (occurred " ++ str_of_int c ++ s2l " times)")]
             else []
         | None => []
         end.
Proof.
  intros Hwf Hl Hfs.
  assert (Hq : qualifies dt_window now d = true).
  { unfold qualifies. rewrite Hfs. reflexivity. }
  destruct (prune_once_removes strftime dt_window now w p m d Hwf Hl Hq)
    as (w' & l1 & l2 & Hrun & Hgone & Hsplit & Hfresh & Htr).
  exists w', l1, l2.
  repeat (split; [assumption |]).
  unfold report, truthy. rewrite Hfs.
  destruct (count d) as [c |]; reflexivity.
Qed.

Lemma prune_once_missing_first_seen_witness :
  let w := Sample.one_record (mkRecord (Some 3) None) in
  exists w' l1 l2,
    prune_once Sample.strftime 5 10 w = Done w'
    /\ lookup (cache_map w') Sample.app_log (s2l "m") = None
    /\ scan 5 10 (cache_map w)
       = l1 ++ (Sample.app_log, s2l "m", mkRecord (Some 3) None) :: l2
    /\ ~ In (Sample.app_log, s2l "m") (map key (l1 ++ l2))
    /\ trace w'
       = trace w ++ [Acquire]
                 ++ reports Sample.strftime 10 l1
                 ++ report Sample.strftime 10 Sample.app_log (s2l "m")
                           (Some (mkRecord (Some 3) None))
                 ++ reports Sample.strftime 10 l2
                 ++ [Release]
    /\ report Sample.strftime 10 Sample.app_log (s2l "m")
              (Some (mkRecord (Some 3) None))
       = [dump_log_to_file Sample.app_log (Sample.strftime 10)
            (s2l "m" ++ s2l " (occurred " ++ str_of_int 3 ++ s2l " times)")].
Proof.
  intros w.
  pose proof (wf_tree_one_record (mkRecord (Some 3) None)) as Hwf.
  exact (prune_once_missing_first_seen Sample.strftime 5 10 w
           Sample.app_log (s2l "m") (mkRecord (Some 3) None)
           Hwf eq_refl eq_refl).
Defined.

(** ** Threads *)

Section ThreadFacts.

Variable parse_datetime : str -> dt_parse.
Variable strftime : datetime -> str.

Lemma bucket_of_setdefault (file_path : Path) (w : world) :
  bucket_of (snd (setdefault_bucket file_path w)) file_path
  = fst (setdefault_bucket file_path w).
Proof.
  destruct (setdefault_bucket_spec file_path w) as (_ & Hg & _).
  unfold bucket_of. rewrite Hg. reflexivity.
Qed.

(** The steps of a Tailer, run without interruption, are the loop body
    of [tail_file]. *)
Lemma run_alone_is_tail_line (file_path : Path) (agg_interval : timedelta)
      (a : arrival) (w : world) (ts : option stamp) (message : str) :
  parse_log_entry parse_datetime (parse_time a) (line a)
  = Ok (ts, Some message) ->
  message <> [] ->
  run_alone strftime file_path agg_interval ts message (observe_time a) w
  = match tail_line parse_datetime strftime file_path agg_interval a w with
    | Done w' => (Finished, w')
    | Crash e w' => (Failed e, w')
    end.
Proof.
  intros Hp Hne.
  destruct (setdefault_bucket_spec file_path w) as (Hc & Hg1 & Hl1 & Htr).
  pose proof (bucket_of_setdefault file_path w) as Hb.
  unfold run_alone. cbn [step_tailer].
  destruct (lookup (cache_map w) file_path message) as [r |] eqn:Hl.
  - rewrite (tail_line_present _ _ _ _ _ _ _ _ _ Hp Hne Hl).
    rewrite Hb. unfold mem. rewrite Hc, Hl. cbn [step_tailer].
    rewrite Hb.
    destruct (process_log strftime (fst (setdefault_bucket file_path w))
                          file_path message agg_interval (observe_time a))
      as [[cache' evs] | e]; reflexivity.
  - rewrite (tail_line_absent _ _ _ _ _ _ _ _ Hp Hne Hl). cbv zeta.
    rewrite Hb. unfold mem. rewrite Hc, Hl. cbn [step_tailer].
    destruct ts as [[t | raw] |]; try reflexivity.
    cbn [step_tailer].
    replace (bucket_of
               (emit (snd (setdefault_bucket file_path w))
                     [dump_log_to_file file_path (strftime t) message])
               file_path)
      with (fst (setdefault_bucket file_path w)) by (symmetry; exact Hb).
    reflexivity.
Qed.

End ThreadFacts.

(** C6 (what the code does): only [setdefault] is under the lock in
    [tail_file]; the membership test, the insertion and the increment are
    not.  Two Tailers that read the same message of the same file and
    both test membership before either inserts leave a record with count
    1 after two observations, and write the line twice.  A sweep that runs
    between the membership test of a Tailer and its [process_log] makes
    the increment fail with [KeyError]. *)
Theorem concurrent_observations_lose_update :
  let t := Tailer Sample.app_log 5 (Some (TsDate 0)) (s2l "m") 0 AtSetdefault in
  (exists w',
      run Sample.strftime [0; 0; 1; 1; 0; 0; 1; 1]%nat [t; t] Sample.empty_world
      = ([Tailer Sample.app_log 5 (Some (TsDate 0)) (s2l "m") 0 Finished;
          Tailer Sample.app_log 5 (Some (TsDate 0)) (s2l "m") 0 Finished],
         w')
      /\ lookup (cache_map w') Sample.app_log (s2l "m")
         = Some (mkRecord (Some 1) (Some 0))
      /\ writes (trace w')
         = [(Sample.app_agg_log, s2l "[0] m" ++ [10%N]);
            (Sample.app_agg_log, s2l "[0] m" ++ [10%N])])
  /\
  (exists w',
      run Sample.strftime [0; 0; 1; 0]%nat
          [Tailer Sample.app_log 5 (Some (TsDate 6)) (s2l "m") 6 AtSetdefault;
           Pruner 5 6 false]
          (Sample.one_record (mkRecord (Some 1) (Some 0)))
      = ([Tailer Sample.app_log 5 (Some (TsDate 6)) (s2l "m") 6
                 (Failed KeyError);
          Pruner 5 6 true],
         w')
      /\ lookup (cache_map w') Sample.app_log (s2l "m") = None
      /\ writes (trace w') = []).
Proof.
  split; eexists; (split; [vm_compute; reflexivity |]);
    vm_compute; split; reflexivity.
Qed.

(** ** From the first sight of a message to the sweep *)

Section Lifecycle.

Variable parse_datetime : str -> dt_parse.
Variable strftime : datetime -> str.

Lemma Forall_set {K V : Type} `{EqDec K} (P : K * V -> Prop)
      (d : dict K V) (k : K) (v : V) :
  Forall P d -> (forall k', P (k', v)) -> Forall P (set d k v).
Proof.
  intros Hd Hv. induction Hd as [| [k0 v0] r Hx Hr IH]; simpl.
  - constructor; [apply Hv | constructor].
  - destruct (eq_dec k0 k); constructor; auto.
Qed.

Lemma wf_tree_set (cm : CacheTree) (p : Path) (b : Bucket) :
  wf_tree cm -> wf b -> wf_tree (set cm p b).
Proof.
  intros [Hcm Hall] Hb. split.
  - apply wf_set. assumption.
  - apply Forall_set; [assumption | intros k'; exact Hb].
Qed.

Lemma wf_bucket_of (w : world) (file_path : Path) :
  wf_tree (cache_map w) -> wf (fst (setdefault_bucket file_path w)).
Proof.
  intros Hwf. unfold setdefault_bucket. simpl.
  destruct (get (cache_map w) file_path) as [b |] eqn:Hg.
  - apply (wf_tree_bucket (cache_map w) file_path b Hwf).
    apply get_In. assumption.
  - constructor.
Qed.

Lemma wf_setdefault (w : world) (file_path : Path) :
  wf_tree (cache_map w) ->
  wf_tree (cache_map (snd (setdefault_bucket file_path w))).
Proof.
  intros Hwf. pose proof (wf_bucket_of w file_path Hwf) as Hb.
  unfold setdefault_bucket in *. simpl in *.
  apply wf_tree_set; assumption.
Qed.

Lemma process_log_wf (cache cache' : Bucket) (source_file : Path)
      (message : str) (agg_window : timedelta) (current_time : datetime)
      (evs : list event) :
  wf cache ->
  process_log strftime cache source_file message agg_window current_time
  = Ok (cache', evs) ->
  wf cache'.
Proof.
  intros Hwf. unfold process_log, increment_count.
  destruct (get cache message) as [r |]; [| discriminate].
  destruct (truthy r);
    destruct (first_seen r); destruct (count r);
    try destruct (agg_window <=? current_time - _);
    intros Heq; inversion Heq; subst;
    first [apply wf_del; assumption | apply wf_set; assumption].
Qed.

(** The loop body of [tail_file] keeps the keys of the cache distinct. *)
Lemma tail_line_wf (file_path : Path) (agg_interval : timedelta)
      (a : arrival) (w : world) :
  wf_tree (cache_map w) ->
  wf_tree (cache_map (world_of
    (tail_line parse_datetime strftime file_path agg_interval a w))).
Proof.
  intros Hwf.
  pose proof (wf_bucket_of w file_path Hwf) as Hb.
  pose proof (wf_setdefault w file_path Hwf) as Hw1.
  unfold tail_line.
  destruct (parse_log_entry parse_datetime (parse_time a) (line a))
    as [[ts [message |]] | e]; cbn [world_of]; try assumption.
  destruct message as [| ch rest]; cbn [world_of]; try assumption.
  destruct (setdefault_bucket file_path w) as [cache w1]. simpl in Hb, Hw1.
  destruct (mem cache (ch :: rest)).
  - destruct (process_log strftime cache file_path (ch :: rest) agg_interval
                          (observe_time a)) as [[cache' evs] | e] eqn:Hpl;
      cbn [world_of cache_map emit with_cache]; [| assumption].
    apply wf_tree_set; [assumption |].
    exact (process_log_wf _ _ _ _ _ _ _ Hb Hpl).
  - destruct ts as [[t | raw] |]; cbn [world_of]; try assumption.
    apply wf_tree_set; [assumption |]. apply wf_set. assumption.
Qed.

(** An observation inside the window: one more, nothing written. *)
Lemma tail_line_in_window (file_path : Path) (agg_interval : timedelta)
      (a : arrival) (w : world) (ts : option stamp) (message : str)
      (c : Z) (fs : datetime) :
  parse_log_entry parse_datetime (parse_time a) (line a)
  = Ok (ts, Some message) ->
  message <> [] ->
  lookup (cache_map w) file_path message
  = Some (mkRecord (Some c) (Some fs)) ->
  observe_time a - fs < agg_interval ->
  exists w',
    tail_line parse_datetime strftime file_path agg_interval a w = Done w'
    /\ lookup (cache_map w') file_path message
       = Some (mkRecord (Some (c + 1)) (Some fs))
    /\ writes (trace w') = writes (trace w).
Proof.
  intros Hp Hne Hl Hage.
  destruct (setdefault_bucket_spec file_path w) as (Hc & Hg1 & Hl1 & Htr).
  rewrite (tail_line_present _ _ _ _ _ _ _ _ _ Hp Hne Hl).
  rewrite (process_log_open_window strftime _ file_path message
             agg_interval (observe_time a) c fs)
    by (try rewrite Hc; assumption).
  eexists. split; [reflexivity |].
  unfold with_cache, emit; cbn [cache_map trace]. split.
  - rewrite lookup_set_same. apply get_set_same.
  - rewrite Htr, app_nil_r, writes_app, app_nil_r. reflexivity.
Qed.

(** Observed one after the other inside the window, n repeats add n to
    the count and write nothing. *)
Lemma tail_file_counts (file_path : Path) (agg_interval : timedelta)
      (message : str) (fs : datetime) (arrivals : list arrival) :
  message <> [] ->
  Forall (repeats parse_datetime agg_interval message fs) arrivals ->
  forall (w : world) (c : Z),
    lookup (cache_map w) file_path message
    = Some (mkRecord (Some c) (Some fs)) ->
    exists w',
      tail_file parse_datetime strftime file_path agg_interval arrivals w
      = Done w'
      /\ lookup (cache_map w') file_path message
         = Some (mkRecord (Some (c + Z.of_nat (length arrivals))) (Some fs))
      /\ writes (trace w') = writes (trace w).
Proof.
  intros Hne Hall. induction Hall as [| a rest [[ts Hp] Hage] Hrest IH];
    intros w c Hl.
  - exists w. simpl. rewrite Z.add_0_r. auto.
  - destruct (tail_line_in_window file_path agg_interval a w ts message c fs
                Hp Hne Hl Hage) as (w1 & Hstep & Hl1 & Hw1).
    destruct (IH w1 (c + 1) Hl1) as (w' & Hrun & Hl' & Hw').
    exists w'. cbn [tail_file]. rewrite Hstep. split; [exact Hrun |].
    split; [| congruence].
    rewrite Hl'. do 3 f_equal. cbn [length]. lia.
Qed.

Lemma tail_file_wf (file_path : Path) (agg_interval : timedelta)
      (arrivals : list arrival) :
  forall w,
    wf_tree (cache_map w) ->
    wf_tree (cache_map (world_of
      (tail_file parse_datetime strftime file_path agg_interval arrivals w))).
Proof.
  induction arrivals as [| a rest IH]; intros w Hwf; simpl; [assumption |].
  pose proof (tail_line_wf file_path agg_interval a w Hwf) as Hstep.
  destruct (tail_line parse_datetime strftime file_path agg_interval a w)
    as [w1 | e w1]; simpl in Hstep; [apply IH |]; assumption.
Qed.

(** The first sight of a message: its line is written, its record made. *)
Lemma tail_line_first_sight (file_path : Path) (agg_interval : timedelta)
      (a : arrival) (w : world) (t : datetime) (message : str) :
  parse_log_entry parse_datetime (parse_time a) (line a)
  = Ok (Some (TsDate t), Some message) ->
  message <> [] ->
  lookup (cache_map w) file_path message = None ->
  exists w',
    tail_line parse_datetime strftime file_path agg_interval a w = Done w'
    /\ lookup (cache_map w') file_path message
       = Some (mkRecord (Some 1) (Some (observe_time a)))
    /\ writes (trace w')
       = writes (trace w)
         ++ [(destination_of file_path,
              s2l "[" ++ strftime t ++ s2l "] " ++ message ++ [10%N])].
Proof.
  intros Hp Hne Hl.
  destruct (setdefault_bucket_spec file_path w) as (Hc & Hg1 & Hl1 & Htr).
  rewrite (tail_line_absent _ _ _ _ _ _ _ _ Hp Hne Hl). cbv zeta.
  eexists. split; [reflexivity |].
  unfold with_cache, emit; cbn [cache_map trace]. split.
  - rewrite lookup_set_same. apply get_set_same.
  - rewrite Htr, !writes_app. simpl. rewrite app_nil_r. reflexivity.
Qed.

(** X15: the life of a message on the Pruner's path: seen first at
    [observe_time first] and then [length rest] more times inside the
    window, it is written once, at first sight; the sweep that comes after
    the window has passed removes its record and writes for it the one
    line "occurred k times" when the number k of observations is more
    than 1, and nothing when k is 1. *)
Lemma observed_then_swept (file_path : Path) (agg_interval : timedelta)
      (message : str) (first : arrival) (rest : list arrival)
      (w : world) (t now : datetime) :
  wf_tree (cache_map w) ->
  message <> [] ->
  parse_log_entry parse_datetime (parse_time first) (line first)
  = Ok (Some (TsDate t), Some message) ->
  lookup (cache_map w) file_path message = None ->
  Forall (repeats parse_datetime agg_interval message (observe_time first))
         rest ->
  agg_interval < now - observe_time first ->
  let k := 1 + Z.of_nat (length rest) in
  exists w1 w2 l1 l2,
    tail_file parse_datetime strftime file_path agg_interval (first :: rest) w
    = Done w1
    /\ writes (trace w1)
       = writes (trace w)
         ++ [(destination_of file_path,
              s2l "[" ++ strftime t ++ s2l "] " ++ message ++ [10%N])]
    /\ prune_once strftime agg_interval now w1 = Done w2
    /\ lookup (cache_map w2) file_path message = None
    /\ scan agg_interval now (cache_map w1)
       = l1 ++ (file_path, message,
                mkRecord (Some k) (Some (observe_time first))) :: l2
    /\ ~ In (file_path, message) (map key (l1 ++ l2))
    /\ trace w2
       = trace w1 ++ [Acquire]
           ++ reports strftime now l1
           ++ (if 1 <? k
               then [dump_log_to_file file_path (strftime now)
                       (message ++ s2l " (occurred " ++ str_of_int k
                                ++ s2l " times)")]
               else [])
           ++ reports strftime now l2
           ++ [Release].
Proof.
  intros Hwf Hne Hp Hl Hrest Hage k.
  destruct (tail_line_first_sight file_path agg_interval first w t message
              Hp Hne Hl) as (wa & Hstep & Hla & Hwa).
  destruct (tail_file_counts file_path agg_interval message
              (observe_time first) rest Hne Hrest wa 1 Hla)
    as (w1 & Hrun & Hl1 & Hw1).
  assert (Hall : tail_file parse_datetime strftime file_path agg_interval
                           (first :: rest) w = Done w1).
  { cbn [tail_file]. rewrite Hstep. exact Hrun. }
  pose proof (tail_file_wf file_path agg_interval (first :: rest) w Hwf)
    as Hwf1.
  rewrite Hall in Hwf1. cbn [world_of] in Hwf1.
  assert (Hq : qualifies agg_interval now
                 (mkRecord (Some k) (Some (observe_time first))) = true).
  { unfold qualifies. cbn [first_seen]. apply Z.ltb_lt. assumption. }
  destruct (prune_once_removes strftime agg_interval now w1 file_path message
              _ Hwf1 Hl1 Hq)
    as (w2 & l1 & l2 & Hsweep & Hgone & Hsplit & Hfresh & Htr).
  exists w1, w2, l1, l2.
  split; [exact Hall |]. split; [congruence |].
  split; [exact Hsweep |]. split; [exact Hgone |].
  split; [exact Hsplit |]. split; [exact Hfresh |].
  rewrite Htr. unfold report. cbn [truthy count first_seen].
  fold k. reflexivity.
Qed.

End Lifecycle.

(** * Further properties of the code *)

(** ** Trimming *)

Lemma lstrip_app_space (ws s : str) :
  forallb isspace ws = true -> lstrip (ws ++ s) = lstrip s.
Proof.
  induction ws as [| c r IH]; simpl; [reflexivity |].
  destruct (isspace c); simpl; [assumption | discriminate].
Qed.

Lemma lstrip_app_kept (s t : str) :
  lstrip s <> [] -> lstrip (s ++ t) = lstrip s ++ t.
Proof.
  induction s as [| c r IH]; simpl; [congruence |].
  destruct (isspace c); [assumption | reflexivity].
Qed.

Lemma lstrip_idempotent (s : str) : lstrip (lstrip s) = lstrip s.
Proof.
  induction s as [| c r IH]; simpl; [reflexivity |].
  destruct (isspace c) eqn:Hc; [assumption |].
  simpl. rewrite Hc. reflexivity.
Qed.

Lemma rstrip_app_space (s ws : str) :
  forallb isspace ws = true -> rstrip (s ++ ws) = rstrip s.
Proof.
  intros Hws. unfold rstrip. rewrite rev_app_distr.
  rewrite lstrip_app_space; [reflexivity |].
  rewrite forallb_rev. assumption.
Qed.

Lemma rstrip_app_kept (s t : str) :
  rstrip t <> [] -> rstrip (s ++ t) = s ++ rstrip t.
Proof.
  intros Ht. unfold rstrip in *. rewrite rev_app_distr.
  rewrite lstrip_app_kept.
  - rewrite rev_app_distr, rev_involutive. reflexivity.
  - intros Hnil. apply Ht. rewrite Hnil. reflexivity.
Qed.

Lemma rstrip_idempotent (s : str) : rstrip (rstrip s) = rstrip s.
Proof.
  unfold rstrip. rewrite rev_involutive, lstrip_idempotent. reflexivity.
Qed.

Lemma rstrip_cons_kept (c : char) (r : str) :
  isspace c = false -> rstrip (c :: r) = c :: rstrip r.
Proof.
  intros Hc. change (c :: r) with ([c] ++ r).
  destruct (rstrip r) as [| d t] eqn:Hr.
  - unfold rstrip in *. apply (proj1 (rev_nil_iff _)) in Hr.
    rewrite rev_app_distr.
    rewrite lstrip_app_space
      by (apply (proj1 (lstrip_nil_iff _)); exact Hr).
    simpl. rewrite Hc. reflexivity.
  - rewrite rstrip_app_kept by (rewrite Hr; discriminate).
    rewrite Hr. reflexivity.
Qed.

Lemma lstrip_head (s : str) (c : char) (r : str) :
  lstrip s = c :: r -> isspace c = false.
Proof.
  induction s as [| a t IH]; simpl; [discriminate |].
  destruct (isspace a) eqn:E; [assumption |].
  intros Heq. inversion Heq; subst. assumption.
Qed.

Lemma lstrip_rstrip_lstrip (s : str) :
  lstrip (rstrip (lstrip s)) = rstrip (lstrip s).
Proof.
  destruct (lstrip s) as [| c r] eqn:Hs; [reflexivity |].
  pose proof (lstrip_head s c r Hs) as Hc.
  rewrite (rstrip_cons_kept c r Hc). simpl. rewrite Hc. reflexivity.
Qed.

Lemma strip_idempotent (s : str) : strip (strip s) = strip s.
Proof.
  unfold strip. rewrite lstrip_rstrip_lstrip.
  apply rstrip_idempotent.
Qed.

Lemma strip_padding (ws ws' s : str) :
  forallb isspace ws = true ->
  forallb isspace ws' = true ->
  strip (ws ++ s ++ ws') = strip s.
Proof.
  intros Hws Hws'. unfold strip.
  rewrite lstrip_app_space by assumption.
  destruct (lstrip s) as [| c r] eqn:Hs.
  - assert (Hall : forallb isspace (s ++ ws') = true).
    { rewrite forallb_app, Hws'.
      rewrite (proj1 (lstrip_nil_iff s) Hs). reflexivity. }
    rewrite (proj2 (lstrip_nil_iff _) Hall). reflexivity.
  - rewrite lstrip_app_kept by (rewrite Hs; discriminate).
    rewrite Hs. apply rstrip_app_space. assumption.
Qed.

(** X1: whitespace around a line does not matter to [parse_log_entry]:
    padding a line with whitespace on either side (indentation, the line
    terminator) gives the same result. *)
Theorem parse_log_entry_ignores_padding
        (parse_datetime : str -> dt_parse) (now : datetime)
        (ws ws' entry : str) :
  forallb isspace ws = true ->
  forallb isspace ws' = true ->
  parse_log_entry parse_datetime now (ws ++ entry ++ ws')
  = parse_log_entry parse_datetime now entry.
Proof.
  intros Hws Hws'. unfold parse_log_entry.
  rewrite (strip_padding ws ws' entry Hws Hws'). reflexivity.
Qed.

Lemma parse_log_entry_ignores_padding_witness :
  parse_log_entry Sample.parse_datetime 7
                  (s2l "  " ++ s2l "[garbled] hello" ++ [13%N; 10%N])
  = parse_log_entry Sample.parse_datetime 7 (s2l "[garbled] hello").
Proof.
  apply (parse_log_entry_ignores_padding Sample.parse_datetime 7
           (s2l "  ") [13%N; 10%N] (s2l "[garbled] hello"));
    reflexivity.
Defined.

(** X2: a message returned by [parse_log_entry] never starts or ends with
    whitespace: trimming it again changes nothing. *)
Theorem parse_log_entry_message_trimmed
        (parse_datetime : str -> dt_parse) (now : datetime) (entry : str)
        (ts : option stamp) (message : str) :
  parse_log_entry parse_datetime now entry = Ok (ts, Some message) ->
  strip message = message.
Proof.
  unfold parse_log_entry.
  destruct (strip entry) as [| c r] eqn:Hs; [discriminate |].
  assert (He : strip (c :: r) = c :: r).
  { rewrite <- Hs. apply strip_idempotent. }
  destruct (startswith lbracket (c :: r) && contains_char rbracket (c :: r)).
  - destruct (find rbracket (c :: r)) as [i |].
    + destruct (parse_datetime (slice 1 i (c :: r)));
        intros Heq; inversion Heq; subst; apply strip_idempotent.
    + intros Heq. inversion Heq; subst. exact He.
  - intros Heq. inversion Heq; subst. exact He.
Qed.

Lemma parse_log_entry_message_trimmed_witness :
  strip (s2l "disk error") = s2l "disk error".
Proof.
  exact (parse_log_entry_message_trimmed Sample.parse_datetime 7
           (s2l " [2024-01-01 10:00:00]   disk error  ")
           (Some (TsDate 1000)) (s2l "disk error") eq_refl).
Defined.

Lemma find_app_first (c : char) (s t : str) :
  contains_char c s = false -> find c (s ++ c :: t) = Some (length s).
Proof.
  unfold contains_char.
  induction s as [| d r IH]; simpl.
  - intros _. rewrite N.eqb_refl. reflexivity.
  - rewrite (N.eqb_sym c d). destruct (N.eqb d c); simpl; [discriminate |].
    intros Hr. rewrite (IH Hr). reflexivity.
Qed.

Lemma firstn_exact_app {A} (l1 l2 : list A) : firstn (length l1) (l1 ++ l2) = l1.
Proof.
  induction l1 as [| a r IH]; simpl; [destruct l2; reflexivity |].
  rewrite IH. reflexivity.
Qed.

Lemma skipn_exact_app {A} (l1 l2 : list A) : skipn (length l1) (l1 ++ l2) = l2.
Proof.
  induction l1 as [| a r IH]; simpl; [reflexivity | assumption].
Qed.

Lemma strip_fixed_parts (s : str) :
  strip s = s -> lstrip s = s /\ rstrip s = s.
Proof.
  intros Hs. split.
  - rewrite <- Hs. unfold strip. apply lstrip_rstrip_lstrip.
  - rewrite <- Hs. unfold strip. apply rstrip_idempotent.
Qed.

(** X3: the lines the tool writes parse back.  For a timestamp text
    without ["]"] and a trimmed, non-empty message, the line that
    [dump_log_to_file] appends is read by [parse_log_entry] as that
    timestamp text (handed to the date parser) and that message. *)
Theorem dump_then_parse
        (parse_datetime : str -> dt_parse) (now : datetime)
        (source_file : Path) (timestamp message : str)
        (destination : Path) (written : str) :
  contains_char rbracket timestamp = false ->
  strip message = message ->
  message <> [] ->
  dump_log_to_file source_file timestamp message = Write destination written ->
  parse_log_entry parse_datetime now written
  = match parse_datetime timestamp with
    | DtOk t => Ok (Some (TsDate t), Some message)
    | DtValueError => Ok (Some (TsRaw timestamp), Some message)
    | DtOther e => Raise e
    end.
Proof.
  intros Hts Hmsg Hne Hdump.
  unfold dump_log_to_file in Hdump. inversion Hdump as [[Hd Hw]]. clear Hdump.
  clear Hd. subst written.
  destruct (strip_fixed_parts message Hmsg) as [Hl Hr].
  set (body := timestamp ++ rbracket :: 32%N :: message).
  unfold parse_log_entry.
  match goal with |- context [strip ?x] => set (l := x) end.
  assert (Hstrip : strip l = lbracket :: body).
  { unfold l.
    change (strip (lbracket :: timestamp ++ rbracket :: 32%N :: message
                            ++ [10%N]) = lbracket :: body).
    unfold strip. cbn [lstrip]. change (isspace lbracket) with false. cbv iota.
    rewrite (rstrip_cons_kept lbracket _ eq_refl). f_equal.
    change (timestamp ++ rbracket :: 32%N :: message ++ [10%N])
      with (timestamp ++ [rbracket; 32%N] ++ message ++ [10%N]).
    rewrite !app_assoc. rewrite rstrip_app_space by reflexivity.
    rewrite rstrip_app_kept by (rewrite Hr; assumption).
    rewrite Hr. unfold body. rewrite <- app_assoc. reflexivity. }
  rewrite Hstrip. clear l Hstrip.
  assert (Hfind : find rbracket (lbracket :: body) = Some (S (length timestamp))).
  { cbn [find]. change (N.eqb lbracket rbracket) with false. cbv iota.
    unfold body. rewrite (find_app_first rbracket timestamp _ Hts).
    reflexivity. }
  assert (Hin : contains_char rbracket (lbracket :: body) = true).
  { destruct (contains_char rbracket (lbracket :: body)) eqn:E;
      [reflexivity |].
    apply find_None_iff in E. congruence. }
  cbn [startswith]. rewrite N.eqb_refl, Hin, Hfind. cbn [andb].
  assert (Hslice : slice 1 (S (length timestamp)) (lbracket :: body)
                   = timestamp).
  { unfold slice. cbn [skipn]. replace (S (length timestamp) - 1)%nat
      with (length timestamp) by lia.
    apply firstn_exact_app. }
  assert (Hrest : strip (slice_from (S (length timestamp) + 1) (lbracket :: body))
                  = message).
  { unfold slice_from. replace (S (length timestamp) + 1)%nat
      with (S (length (timestamp ++ [rbracket]))) by (rewrite length_app; simpl; lia).
    cbn [skipn]. unfold body.
    change (timestamp ++ rbracket :: 32%N :: message)
      with (timestamp ++ [rbracket] ++ 32%N :: message).
    rewrite app_assoc, skipn_exact_app.
    rewrite <- (app_nil_r message) at 1.
    change (32%N :: message ++ []) with ([32%N] ++ message ++ []).
    rewrite strip_padding by reflexivity. exact Hmsg. }
  rewrite Hslice, Hrest. reflexivity.
Qed.

Lemma dump_then_parse_witness :
  parse_log_entry Sample.parse_datetime 0
                  (s2l "[2024-01-01 10:00:00] disk error (occurred 3 times)"
                       ++ [10%N])
  = Ok (Some (TsDate 1000), Some (s2l "disk error (occurred 3 times)")).
Proof.
  assert (Hne : s2l "disk error (occurred 3 times)" <> []) by discriminate.
  exact (dump_then_parse Sample.parse_datetime 0 Sample.app_log
           (s2l "2024-01-01 10:00:00") (s2l "disk error (occurred 3 times)")
           Sample.app_agg_log
           (s2l "[2024-01-01 10:00:00] disk error (occurred 3 times)"
                ++ [10%N])
           eq_refl eq_refl Hne eq_refl).
Defined.

(** ** The Tailer, case by case *)

Section TailerCases.

Variable parse_datetime : str -> dt_parse.
Variable strftime : datetime -> str.

(** All that [process_log] can do. *)
Lemma process_log_cases (cache : Bucket) (source_file : Path) (message : str)
      (agg_window : timedelta) (current_time : datetime) :
  (process_log strftime cache source_file message agg_window current_time
   = Raise KeyError
   /\ forall c fs, get cache message <> Some (mkRecord (Some c) (Some fs)))
  \/
  exists c fs,
    get cache message = Some (mkRecord (Some c) (Some fs))
    /\ ((current_time - fs < agg_window
         /\ process_log strftime cache source_file message agg_window
                        current_time
            = Ok (set cache message (mkRecord (Some (c + 1)) (Some fs)), []))
        \/
        (agg_window <= current_time - fs
         /\ process_log strftime cache source_file message agg_window
                        current_time
            = Ok (del cache message,
                  if 1 <=? c
                  then [dump_log_to_file source_file (strftime current_time)
                          (message ++ s2l " (occured " ++ str_of_int c
                                   ++ s2l " times)")]
                  else []))).
Proof.
  destruct (get cache message) as [[[c |] [fs |]] |] eqn:Hg.
  - right. exists c, fs. split; [reflexivity |].
    destruct (Z_lt_le_dec (current_time - fs) agg_window) as [Hage | Hage].
    + left. split; [assumption |].
      exact (process_log_open_window strftime cache source_file message
               agg_window current_time c fs Hg Hage).
    + right. split; [assumption |].
      exact (process_log_closed_window strftime cache source_file message
               agg_window current_time c fs Hg Hage).
  - left. split; [| intros; discriminate].
    unfold process_log. rewrite Hg. reflexivity.
  - left. split; [| intros; discriminate].
    unfold process_log, increment_count. rewrite Hg. simpl.
    destruct (agg_window <=? current_time - fs); reflexivity.
  - left. split; [| intros; discriminate].
    unfold process_log, increment_count. rewrite Hg. reflexivity.
  - left. split; [| intros; discriminate].
    unfold process_log, increment_count. rewrite Hg. reflexivity.
Qed.

(** All that the loop body of [tail_file] can do with a line. *)
Lemma tail_line_cases (file_path : Path) (agg_interval : timedelta)
      (a : arrival) (w : world) :
  let o := tail_line parse_datetime strftime file_path agg_interval a w in
  (* the line is skipped, or the parser raises: nothing happens *)
  ((o = Done w \/ exists e, o = Crash e w)
   /\ forall ts ch rest,
        parse_log_entry parse_datetime (parse_time a) (line a)
        <> Ok (ts, Some (ch :: rest)))
  \/
  exists ts message,
    parse_log_entry parse_datetime (parse_time a) (line a)
    = Ok (ts, Some message)
    /\ message <> []
    /\ ((exists r,
            lookup (cache_map w) file_path message = Some r
            /\ o = match process_log strftime
                           (fst (setdefault_bucket file_path w))
                           file_path message agg_interval (observe_time a) with
                   | Ok (cache', evs) =>
                       Done (emit (with_cache
                                     (snd (setdefault_bucket file_path w))
                                     (set (cache_map
                                             (snd (setdefault_bucket file_path w)))
                                          file_path cache')) evs)
                   | Raise e => Crash e (snd (setdefault_bucket file_path w))
                   end)
        \/
        (lookup (cache_map w) file_path message = None
         /\ o = match ts with
                | Some (TsDate t) =>
                    Done (with_cache
                            (emit (snd (setdefault_bucket file_path w))
                                  [dump_log_to_file file_path (strftime t)
                                                    message])
                            (set (cache_map (snd (setdefault_bucket file_path w)))
                                 file_path
                                 (set (fst (setdefault_bucket file_path w))
                                      message
                                      (mkRecord (Some 1)
                                                (Some (observe_time a))))))
                | _ => Crash AttributeError (snd (setdefault_bucket file_path w))
                end)).
Proof.
  intros o.
  destruct (parse_log_entry parse_datetime (parse_time a) (line a))
    as [[ts [[| ch rest] |]] | e] eqn:Hp.
  - left. split; [| intros; discriminate].
    left. unfold o, tail_line. rewrite Hp. reflexivity.
  - right. exists ts, (ch :: rest).
    split; [reflexivity |]. split; [discriminate |].
    assert (Hne : ch :: rest <> []) by discriminate.
    destruct (lookup (cache_map w) file_path (ch :: rest)) as [r |] eqn:Hl.
    + left. exists r. split; [reflexivity |].
      exact (tail_line_present parse_datetime strftime _ _ _ _ _ _ _ Hp Hne Hl).
    + right. split; [reflexivity |].
      exact (tail_line_absent parse_datetime strftime _ _ _ _ _ _ Hp Hne Hl).
  - left. split; [| intros; discriminate].
    left. unfold o, tail_line. rewrite Hp. reflexivity.
  - left. split; [| intros; discriminate].
    right. exists e. unfold o, tail_line. rewrite Hp. reflexivity.
Qed.

End TailerCases.

(** X4: [process_log] succeeds exactly on a message whose record has both
    a count and a first_seen; in every other case (no record, or a record
    lacking a key) it raises [KeyError], and nothing else.  When it
    succeeds, the records of all other messages are as before. *)
Theorem process_log_succeeds_iff
        (strftime : datetime -> str) (cache : Bucket) (source_file : Path)
        (message : str) (agg_window : timedelta) (current_time : datetime) :
  ((exists cache' evs,
       process_log strftime cache source_file message agg_window current_time
       = Ok (cache', evs))
   <-> exists c fs, get cache message = Some (mkRecord (Some c) (Some fs)))
  /\ (forall e,
        process_log strftime cache source_file message agg_window current_time
        = Raise e -> e = KeyError)
  /\ (forall cache' evs m,
        process_log strftime cache source_file message agg_window current_time
        = Ok (cache', evs) ->
        m <> message -> get cache' m = get cache m).
Proof.
  destruct (process_log_cases strftime cache source_file message agg_window
              current_time)
    as [[Hraise Hnone] | (c & fs & Hg & [[Hage Hpl] | [Hage Hpl]])];
    rewrite ?Hraise, ?Hpl.
  - split; [| split].
    + split.
      * intros (cache' & evs & Heq). discriminate.
      * intros (c & fs & Hg). exfalso. exact (Hnone c fs Hg).
    + intros e Heq. inversion Heq. reflexivity.
    + intros cache' evs m Heq. discriminate.
  - split; [| split].
    + split; [intros _; exists c, fs; exact Hg | intros _; eauto].
    + intros e Heq. discriminate.
    + intros cache' evs m Heq Hm. inversion Heq; subst.
      apply get_set_other. congruence.
  - split; [| split].
    + split; [intros _; exists c, fs; exact Hg | intros _; eauto].
    + intros e Heq. discriminate.
    + intros cache' evs m Heq Hm. inversion Heq; subst.
      apply get_del_other. congruence.
Qed.

(** X5: a line that is blank, or that consists of a bracketed text alone
    (when the date parser raises nothing but [ValueError]), is skipped by
    the Tailer: no lock is taken, nothing is written and the cache is
    exactly as before. *)
Theorem tail_line_skips_empty
        (parse_datetime : str -> dt_parse) (strftime : datetime -> str)
        (file_path : Path) (agg_interval : timedelta)
        (a : arrival) (w : world) :
  forallb isspace (line a) = true
  \/ (bracket_only (strip (line a)) = true
      /\ forall s e, parse_datetime s <> DtOther e) ->
  tail_line parse_datetime strftime file_path agg_interval a w = Done w.
Proof.
  intros [Hblank | [Hbr Hpd]]; unfold tail_line, parse_log_entry.
  - rewrite (proj2 (strip_nil_iff _) Hblank). reflexivity.
  - destruct (strip (line a)) as [| c r] eqn:Hs; [reflexivity |].
    unfold bracket_only in Hbr.
    apply andb_true_iff in Hbr. destruct Hbr as [Hsw Hrest].
    destruct (find rbracket (c :: r)) as [i |] eqn:Hf; [| discriminate].
    assert (Hin : contains_char rbracket (c :: r) = true).
    { destruct (contains_char rbracket (c :: r)) eqn:E; [reflexivity |].
      apply find_None_iff in E. congruence. }
    rewrite Hsw, Hin. cbn [andb].
    rewrite (proj2 (strip_nil_iff _) Hrest).
    destruct (parse_datetime (slice 1 i (c :: r))) as [t | | e] eqn:Hp;
      [reflexivity | reflexivity | exfalso; exact (Hpd _ _ Hp)].
Qed.

Lemma tail_line_skips_empty_witness :
  tail_line Sample.parse_datetime Sample.strftime Sample.app_log 5
            (mkArrival (s2l "[x]  ") 0 0)
            (Sample.one_record (mkRecord (Some 1) (Some 0)))
  = Done (Sample.one_record (mkRecord (Some 1) (Some 0))).
Proof.
  apply (tail_line_skips_empty Sample.parse_datetime Sample.strftime
           Sample.app_log 5 (mkArrival (s2l "[x]  ") 0 0)).
  right. split; [reflexivity |].
  intros s e. unfold Sample.parse_datetime.
  destruct (str_eq_dec s (s2l "2024-01-01 10:00:00")); discriminate.
Defined.

Section TailerEffect.

Variable parse_datetime : str -> dt_parse.
Variable strftime : datetime -> str.

(** What one step of the Tailer leaves behind. *)
Lemma tail_line_effect (file_path : Path) (agg_interval : timedelta)
      (a : arrival) (w : world) :
  let w' := world_of
              (tail_line parse_datetime strftime file_path agg_interval a w) in
  (w' = w
   /\ forall ts ch rest,
        parse_log_entry parse_datetime (parse_time a) (line a)
        <> Ok (ts, Some (ch :: rest)))
  \/
  exists ts message,
    parse_log_entry parse_datetime (parse_time a) (line a)
    = Ok (ts, Some message)
    /\ message <> []
    /\ (forall p m, (p, m) <> (file_path, message) ->
                    lookup (cache_map w') p m = lookup (cache_map w) p m)
    /\ (lookup (cache_map w') file_path message
        = lookup (cache_map w) file_path message
        \/ lookup (cache_map w') file_path message = None
        \/ (lookup (cache_map w) file_path message = None
            /\ lookup (cache_map w') file_path message
               = Some (mkRecord (Some 1) (Some (observe_time a))))
        \/ exists c fs,
            lookup (cache_map w) file_path message
            = Some (mkRecord (Some c) (Some fs))
            /\ lookup (cache_map w') file_path message
               = Some (mkRecord (Some (c + 1)) (Some fs)))
    /\ exists evs,
        trace w' = trace w ++ Acquire :: Release :: evs
        /\ (evs = [] \/ exists d l, evs = [Write d l]).
Proof.
  intros w'. subst w'.
  destruct (setdefault_bucket_spec file_path w) as (Hc & Hg1 & Hl1 & Htr).
  assert (Hcache : forall m,
             get (fst (setdefault_bucket file_path w)) m
             = lookup (cache_map (snd (setdefault_bucket file_path w)))
                      file_path m).
  { intros m. rewrite Hl1. apply Hc. }
  destruct (tail_line_cases parse_datetime strftime file_path agg_interval a w)
    as [[[Ho | [e Ho]] Hnone]
       | (ts & message & Hp & Hne & [(r & Hl & Ho) | (Hl & Ho)])];
    cbv zeta in Ho; rewrite Ho.
  - left. split; [reflexivity | exact Hnone].
  - left. split; [reflexivity | exact Hnone].
  - right. exists ts, message. split; [exact Hp |]. split; [exact Hne |].
    destruct (process_log_cases strftime
                (fst (setdefault_bucket file_path w)) file_path message
                agg_interval (observe_time a))
      as [[Hraise _] | (c & fs & Hg & [[Hage Hpl] | [Hage Hpl]])];
      rewrite ?Hraise, ?Hpl; unfold with_cache, emit;
      cbn [world_of cache_map trace].
    + split; [intros p m _; apply Hl1 |].
      split; [left; apply Hl1 |].
      exists []. split; [exact Htr | left; reflexivity].
    + destruct (lookup_update_record _ file_path _ message
                  (mkRecord (Some (c + 1)) (Some fs)) Hcache) as [Hsame Hother].
      split; [intros p m Hpm; rewrite (Hother p m Hpm); apply Hl1 |].
      split.
      * right. right. right. exists c, fs. split; [| exact Hsame].
        rewrite <- Hc. exact Hg.
      * exists []. split; [rewrite Htr, app_nil_r; reflexivity |].
        left; reflexivity.
    + destruct (lookup_delete_record _ file_path _ message Hcache)
        as [Hsame Hother].
      split; [intros p m Hpm; rewrite (Hother p m Hpm); apply Hl1 |].
      split; [right; left; exact Hsame |].
      eexists. split; [rewrite Htr, <- app_assoc; reflexivity |].
      unfold dump_log_to_file. destruct (1 <=? c); eauto.
  - right. exists ts, message. split; [exact Hp |]. split; [exact Hne |].
    destruct ts as [[t | raw] |]; unfold with_cache, emit;
      cbn [world_of cache_map trace].
    + destruct (lookup_update_record _ file_path _ message
                  (mkRecord (Some 1) (Some (observe_time a))) Hcache)
        as [Hsame Hother].
      split; [intros p m Hpm; rewrite (Hother p m Hpm); apply Hl1 |].
      split; [right; right; left; split; [exact Hl | exact Hsame] |].
      eexists. split; [rewrite Htr, <- app_assoc; reflexivity |].
      unfold dump_log_to_file. eauto.
    + split; [intros p m _; apply Hl1 |].
      split; [left; apply Hl1 |].
      exists []. split; [exact Htr | left; reflexivity].
    + split; [intros p m _; apply Hl1 |].
      split; [left; apply Hl1 |].
      exists []. split; [exact Htr | left; reflexivity].
Qed.

End TailerEffect.

(** X6: one step of the Tailer changes at most one record, the one of the
    arriving message in the Tailer's own file: the records of other files
    and of other messages are as before.  No step ever changes the
    [first_seen] of a record that exists; a record is deleted, or left
    alone, or its count grows by exactly one. *)
Theorem tail_line_record_changes
        (parse_datetime : str -> dt_parse) (strftime : datetime -> str)
        (file_path : Path) (agg_interval : timedelta)
        (a : arrival) (w : world) (p : Path) (m : str) :
  let w' := world_of
              (tail_line parse_datetime strftime file_path agg_interval a w) in
  ((p <> file_path
    \/ forall ts, parse_log_entry parse_datetime (parse_time a) (line a)
                  <> Ok (ts, Some m)) ->
   lookup (cache_map w') p m = lookup (cache_map w) p m)
  /\
  (forall d,
      lookup (cache_map w) p m = Some d ->
      lookup (cache_map w') p m = None
      \/ exists d',
          lookup (cache_map w') p m = Some d'
          /\ first_seen d' = first_seen d
          /\ (count d' = count d
              \/ exists c, count d = Some c /\ count d' = Some (c + 1))).
Proof.
  intros w'. subst w'.
  destruct (tail_line_effect parse_datetime strftime file_path agg_interval a w)
    as [[Hsame _] | (ts & message & Hp & Hne & Hother & Hown & _)];
    cbv zeta in *.
  - rewrite Hsame. split; [reflexivity |].
    intros d Hd. right. exists d. auto.
  - assert (Hfar : (p <> file_path
                    \/ forall ts', parse_log_entry parse_datetime (parse_time a)
                                     (line a) <> Ok (ts', Some m)) ->
                   (p, m) <> (file_path, message)).
    { intros [Hpf | Hnot] Heq; inversion Heq; subst.
      - apply Hpf. reflexivity.
      - exact (Hnot ts Hp). }
    split; [intros Hfar'; apply Hother; apply Hfar; exact Hfar' |].
    intros d Hd.
    destruct (eq_dec p file_path) as [Ep | Ep];
      [destruct (str_eq_dec m message) as [Em | Em] |].
    + subst p m.
      destruct Hown as [Hkeep | [Hgone | [[Hnew _] | (c & fs & Hold & Hinc)]]].
      * right. exists d. rewrite Hkeep. auto.
      * left. exact Hgone.
      * congruence.
      * right. exists (mkRecord (Some (c + 1)) (Some fs)).
        split; [exact Hinc |].
        rewrite Hold in Hd. inversion Hd; subst. simpl.
        split; [reflexivity |]. right. exists c. auto.
    + right. exists d. rewrite Hother; [auto |].
      intros Heq. inversion Heq. contradiction.
    + right. exists d. rewrite Hother; [auto |].
      intros Heq. inversion Heq. contradiction.
Qed.

Lemma tail_line_record_changes_witness :
  let w := Sample.one_record (mkRecord (Some 1) (Some 0)) in
  let w' := world_of
              (tail_line Sample.parse_datetime Sample.strftime Sample.app_log 5
                         (Sample.plain "other" 3) w) in
  lookup (cache_map w') Sample.app_log (s2l "m")
  = Some (mkRecord (Some 1) (Some 0)).
Proof.
  intros w w'.
  destruct (tail_line_record_changes
              Sample.parse_datetime Sample.strftime Sample.app_log 5
              (Sample.plain "other" 3) w Sample.app_log (s2l "m"))
    as [Hfar _].
  apply Hfar. right. intros ts. vm_compute. discriminate.
Defined.

(** X7: the Tailer never writes while it holds the lock, and a line makes
    it write at most once: what one step adds to the trace is nothing, or
    one [Acquire], its [Release], and then at most one line. *)
Theorem tail_line_lock_discipline
        (parse_datetime : str -> dt_parse) (strftime : datetime -> str)
        (file_path : Path) (agg_interval : timedelta)
        (a : arrival) (w : world) :
  exists evs,
    trace (world_of
             (tail_line parse_datetime strftime file_path agg_interval a w))
    = trace w ++ evs
    /\ no_write_while_held false evs = true
    /\ (length (writes evs) <= 1)%nat
    /\ (evs = []
        \/ exists ws, evs = Acquire :: Release :: ws
                      /\ forallb is_write ws = true).
Proof.
  destruct (tail_line_effect parse_datetime strftime file_path agg_interval a w)
    as [[Hsame _] | (ts & message & _ & _ & _ & _ & evs & Htr & Hevs)];
    cbv zeta in *.
  - exists []. rewrite Hsame, app_nil_r. simpl. auto.
  - exists (Acquire :: Release :: evs). split; [exact Htr |].
    destruct Hevs as [Hnil | (d & l & Hone)]; subst evs; simpl.
    + repeat split; auto. right. exists []. auto.
    + repeat split; auto. right. eexists. split; reflexivity.
Qed.

(** ** Discovery and the output files *)

(** X8: [discover_files] returns exactly the resolved matches of the
    patterns whose stem does not contain ["-agg"], pattern by pattern and
    match by match (a file matched twice is returned twice); discovering
    for two lists of patterns in a row is discovering for each. *)
Theorem discover_files_exactly
        (glob : str -> list str) (resolve : str -> Path)
        (patterns more : list str) (p : Path) :
  (In p (discover_files glob resolve patterns)
   <-> exists pattern file,
         In pattern patterns
         /\ In file (glob pattern)
         /\ p = resolve file
         /\ contains agg_marker (stem p) = false)
  /\ discover_files glob resolve (patterns ++ more)
     = discover_files glob resolve patterns ++ discover_files glob resolve more
  /\ length (discover_files glob resolve patterns)
     = length (filter (fun f => negb (contains agg_marker (stem (resolve f))))
                      (flat_map glob patterns)).
Proof.
  unfold discover_files. split; [| split].
  - rewrite in_flat_map. split.
    + intros (pattern & Hpat & Hin).
      apply filter_In in Hin. destruct Hin as [Hin Hstem].
      apply in_map_iff in Hin. destruct Hin as (file & Hres & Hfile).
      exists pattern, file. apply negb_true_iff in Hstem. auto.
    + intros (pattern & file & Hpat & Hfile & Hres & Hstem).
      exists pattern. split; [assumption |].
      apply filter_In. split.
      * subst p. apply in_map. assumption.
      * rewrite Hstem. reflexivity.
  - apply flat_map_app.
  - induction patterns as [| pattern rest IH]; simpl; [reflexivity |].
    rewrite length_app, IH, filter_app, length_app. f_equal.
    clear. induction (glob pattern) as [| f r IH]; simpl; [reflexivity |].
    destruct (negb (contains agg_marker (stem (resolve f)))); simpl;
      rewrite IH; reflexivity.
Qed.

(** X9: two sources write to the same output file exactly when they are
    in the same directory and have the same stem: files that differ only
    in their suffix share one [<stem>-agg.log]. *)
Theorem destination_of_collides_iff (p q : Path) :
  destination_of p = destination_of q
  <-> parent p = parent q /\ stem p = stem q.
Proof.
  unfold destination_of. split.
  - intros Heq. injection Heq as Hparent Hname.
    split; [exact Hparent |].
    exact (app_inv_tail _ _ _ Hname).
  - intros [Hparent Hstem]. rewrite Hparent, Hstem. reflexivity.
Qed.

(** ** Sweep after sweep *)

Section Sweeps.

Variable strftime : datetime -> str.

Lemma remove_loop_wf (now : datetime) (l : list (Path * str * CacheRecord)) :
  forall w,
    wf_tree (cache_map w) ->
    wf_tree (cache_map (world_of (remove_loop strftime now l w))).
Proof.
  induction l as [| [[path msg] data] rest IH]; intros w Hwf; simpl;
    [assumption |].
  destruct (get (cache_map w) path) as [cache |] eqn:Hg; [| assumption].
  apply IH. unfold emit, with_cache; cbn [cache_map].
  apply wf_tree_set; [assumption |]. apply wf_del.
  apply (wf_tree_bucket (cache_map w) path cache Hwf).
  apply get_In. assumption.
Qed.

Lemma prune_once_wf (dt_window : timedelta) (now : datetime) (w : world) :
  wf_tree (cache_map w) ->
  wf_tree (cache_map (world_of (prune_once strftime dt_window now w))).
Proof.
  intros Hwf. unfold prune_once.
  pose proof (remove_loop_wf now
                (scan dt_window now (cache_map (emit w [Acquire])))
                (emit w [Acquire]) Hwf) as Hloop.
  destruct (remove_loop strftime now
              (scan dt_window now (cache_map (emit w [Acquire])))
              (emit w [Acquire])) as [w' | e w']; exact Hloop.
Qed.

(** A record that passes the test of the scan passes it at any later time. *)
Lemma qualifies_later (dt_window : timedelta) (now later : datetime)
      (d : CacheRecord) :
  now <= later ->
  qualifies dt_window now d = true -> qualifies dt_window later d = true.
Proof.
  unfold qualifies. destruct (first_seen d) as [fs |]; [| auto].
  intros Hle Hq. apply Z.ltb_lt in Hq. apply Z.ltb_lt. lia.
Qed.

Lemma scan_nil (dt_window : timedelta) (now : datetime) (cm : CacheTree) :
  wf_tree cm ->
  (forall p m d, lookup cm p m = Some d -> qualifies dt_window now d = false) ->
  scan dt_window now cm = [].
Proof.
  intros Hwf Hnone.
  destruct (scan dt_window now cm) as [| x l] eqn:Hs; [reflexivity |].
  assert (Hin : In x (scan dt_window now cm)) by (rewrite Hs; left; reflexivity).
  apply (scan_In_lookup dt_window now cm x Hwf) in Hin.
  destruct Hin as [Hl Hq]. rewrite (Hnone _ _ _ Hl) in Hq. discriminate.
Qed.

End Sweeps.

Lemma wf_tree_two_records (r1 r2 : CacheRecord) :
  wf_tree (cache_map (Sample.two_records r1 r2)).
Proof.
  assert (Hb : wf [(s2l "m", r1); (s2l "n", r2)]).
  { unfold wf. cbn [map fst]. constructor.
    - intros [Heq | []]. discriminate Heq.
    - constructor; [intros [] | constructor]. }
  split.
  - unfold wf. simpl. constructor; [simpl; tauto | constructor].
  - constructor; [exact Hb | constructor].
Qed.

(** X10: a record is reported by one sweep only.  After a sweep at time
    [now], a further sweep at any time [again] removes exactly the records
    that were in the cache before the first sweep, did not pass the test
    at [now] and pass it at [again]: no file and message the first sweep
    removed is among them.  Both sweeps end, the two of them write the
    reports of the first sweep and then those of the second, each between
    taking and releasing the lock, and the cache they leave holds the
    records that pass the test at neither time.  When the clock has not
    advanced ([again <= now]) the second sweep removes and writes
    nothing. *)
Theorem prune_once_twice
        (strftime : datetime -> str) (dt_window : timedelta)
        (now again : datetime) (w : world) :
  wf_tree (cache_map w) ->
  exists w1 w2,
    prune_once strftime dt_window now w = Done w1
    /\ prune_once strftime dt_window again w1 = Done w2
    /\ (forall x,
           In x (scan dt_window again (cache_map w1)) <->
           lookup (cache_map w) (fst (fst x)) (snd (fst x)) = Some (snd x)
           /\ qualifies dt_window now (snd x) = false
           /\ qualifies dt_window again (snd x) = true)
    /\ (forall x,
           In x (scan dt_window again (cache_map w1)) ->
           ~ In (key x) (map key (scan dt_window now (cache_map w))))
    /\ trace w2
       = trace w ++ [Acquire]
                 ++ reports strftime now (scan dt_window now (cache_map w))
                 ++ [Release]
                 ++ [Acquire]
                 ++ reports strftime again
                            (scan dt_window again (cache_map w1))
                 ++ [Release]
    /\ (forall p m,
           lookup (cache_map w2) p m
           = match lookup (cache_map w) p m with
             | Some d =>
                 if qualifies dt_window now d || qualifies dt_window again d
                 then None else Some d
             | None => None
             end)
    /\ (again <= now ->
        scan dt_window again (cache_map w1) = []
        /\ cache_map w2 = cache_map w1
        /\ trace w2 = trace w1 ++ [Acquire; Release]).
Proof.
  intros Hwf.
  destruct (prune_once_spec strftime dt_window now w Hwf)
    as (w1 & Hrun1 & Htr1 & Hlook1).
  pose proof (prune_once_wf strftime dt_window now w Hwf) as Hwf1.
  rewrite Hrun1 in Hwf1. cbn [world_of] in Hwf1.
  destruct (prune_once_spec strftime dt_window again w1 Hwf1)
    as (w2 & Hrun2 & Htr2 & Hlook2).
  assert (Hiff : forall x,
             In x (scan dt_window again (cache_map w1)) <->
             lookup (cache_map w) (fst (fst x)) (snd (fst x)) = Some (snd x)
             /\ qualifies dt_window now (snd x) = false
             /\ qualifies dt_window again (snd x) = true).
  { intros x.
    rewrite (scan_In_lookup dt_window again (cache_map w1) x Hwf1).
    rewrite Hlook1.
    destruct (lookup (cache_map w) (fst (fst x)) (snd (fst x))) as [d0 |].
    - destruct (qualifies dt_window now d0) eqn:Hq0; split.
      + intros [Habs _]. discriminate Habs.
      + intros (Heq & Hq & _). injection Heq as Heq. rewrite <- Heq in Hq.
        rewrite Hq in Hq0. discriminate Hq0.
      + intros [Heq Hq]. injection Heq as Heq. rewrite <- Heq.
        rewrite <- Heq in Hq. auto.
      + intros (Heq & _ & Hq). auto.
    - split.
      + intros [Habs _]. discriminate Habs.
      + intros [Habs _]. discriminate Habs. }
  exists w1, w2.
  split; [exact Hrun1 |]. split; [exact Hrun2 |]. split; [exact Hiff |].
  split; [| split; [| split]].
  - intros x Hin Hkey.
    apply (proj1 (Hiff x)) in Hin. destruct Hin as (Hl & Hq0 & _).
    apply in_map_iff in Hkey. destruct Hkey as (y & Hy & Hiny).
    apply (proj1 (scan_In_lookup dt_window now (cache_map w) y Hwf)) in Hiny.
    destruct Hiny as [Hly Hqy].
    unfold key in Hy. injection Hy as Hp Hm.
    rewrite Hp, Hm, Hl in Hly. injection Hly as Hd.
    rewrite <- Hd, Hq0 in Hqy. discriminate Hqy.
  - rewrite Htr2, Htr1. rewrite <- !app_assoc. reflexivity.
  - intros p m. rewrite Hlook2, Hlook1.
    destruct (lookup (cache_map w) p m) as [d |]; [| reflexivity].
    destruct (qualifies dt_window now d); [reflexivity |].
    cbn [orb]. reflexivity.
  - intros Hle.
    assert (Hnil : scan dt_window again (cache_map w1) = []).
    { apply scan_nil; [exact Hwf1 |].
      intros p m d Hl. rewrite Hlook1 in Hl.
      destruct (lookup (cache_map w) p m) as [d0 |]; [| discriminate].
      destruct (qualifies dt_window now d0) eqn:Hq0; [discriminate |].
      inversion Hl; subst d0.
      destruct (qualifies dt_window again d) eqn:Hq; [| reflexivity].
      rewrite (qualifies_later dt_window again now d Hle Hq) in Hq0.
      discriminate. }
    split; [exact Hnil |]. split.
    + unfold prune_once in Hrun2.
      change (cache_map (emit w1 [Acquire])) with (cache_map w1) in Hrun2.
      rewrite Hnil in Hrun2. cbn [remove_loop] in Hrun2.
      injection Hrun2 as Hw2. rewrite <- Hw2. reflexivity.
    + rewrite Htr2, Hnil. reflexivity.
Qed.

Lemma prune_once_twice_witness :
  let w := Sample.two_records (mkRecord (Some 3) (Some 0))
                              (mkRecord (Some 2) (Some 8)) in
  exists w1 w2,
    prune_once Sample.strftime 5 10 w = Done w1
    /\ prune_once Sample.strftime 5 20 w1 = Done w2
    /\ (forall x,
           In x (scan 5 20 (cache_map w1)) <->
           lookup (cache_map w) (fst (fst x)) (snd (fst x)) = Some (snd x)
           /\ qualifies 5 10 (snd x) = false
           /\ qualifies 5 20 (snd x) = true)
    /\ (forall x,
           In x (scan 5 20 (cache_map w1)) ->
           ~ In (key x) (map key (scan 5 10 (cache_map w))))
    /\ trace w2
       = trace w ++ [Acquire]
                 ++ reports Sample.strftime 10 (scan 5 10 (cache_map w))
                 ++ [Release]
                 ++ [Acquire]
                 ++ reports Sample.strftime 20 (scan 5 20 (cache_map w1))
                 ++ [Release]
    /\ (forall p m,
           lookup (cache_map w2) p m
           = match lookup (cache_map w) p m with
             | Some d =>
                 if qualifies 5 10 d || qualifies 5 20 d
                 then None else Some d
             | None => None
             end)
    /\ (20 <= 10 ->
        scan 5 20 (cache_map w1) = []
        /\ cache_map w2 = cache_map w1
        /\ trace w2 = trace w1 ++ [Acquire; Release]).
Proof.
  intros w.
  pose proof (wf_tree_two_records (mkRecord (Some 3) (Some 0))
                                  (mkRecord (Some 2) (Some 8))) as Hwf.
  exact (prune_once_twice Sample.strftime 5 10 20 w Hwf).
Defined.

(** X11: the Pruner thread never dies of its sweeps, and what it leaves
    after sweeping at the times [nows] is the cache without the records
    that passed the test at one of these times; every other record is as
    it was.  When no sweep is later than the sweep at [t], that is what
    the single sweep at [t] would have left. *)
Theorem worker_sweeps
        (strftime : datetime -> str) (dt_window : timedelta)
        (nows : list datetime) (w : world) :
  wf_tree (cache_map w) ->
  exists w',
    _worker strftime dt_window nows w = Done w'
    /\ (forall p m,
          lookup (cache_map w') p m
          = match lookup (cache_map w) p m with
            | Some d =>
                if existsb (fun now => qualifies dt_window now d) nows
                then None else Some d
            | None => None
            end)
    /\ (forall t,
          In t nows ->
          (forall now, In now nows -> now <= t) ->
          forall p m,
            lookup (cache_map w') p m
            = lookup (cache_map
                        (world_of (prune_once strftime dt_window t w))) p m).
Proof.
  intros Hwf.
  assert (Hmain : forall nows w,
             wf_tree (cache_map w) ->
             exists w',
               _worker strftime dt_window nows w = Done w'
               /\ forall p m,
                    lookup (cache_map w') p m
                    = match lookup (cache_map w) p m with
                      | Some d =>
                          if existsb (fun now => qualifies dt_window now d) nows
                          then None else Some d
                      | None => None
                      end).
  { clear. induction nows as [| now later IH]; intros w Hwf.
    - exists w. split; [reflexivity |].
      intros p m. simpl. destruct (lookup (cache_map w) p m); reflexivity.
    - destruct (prune_once_spec strftime dt_window now w Hwf)
        as (w1 & Hrun & _ & Hlook).
      pose proof (prune_once_wf strftime dt_window now w Hwf) as Hwf1.
      rewrite Hrun in Hwf1. cbn [world_of] in Hwf1.
      destruct (IH w1 Hwf1) as (w' & Hrest & Hlook').
      exists w'. cbn [_worker]. rewrite Hrun. split; [exact Hrest |].
      intros p m. rewrite Hlook', Hlook. cbn [existsb].
      destruct (lookup (cache_map w) p m) as [d |]; [| reflexivity].
      destruct (qualifies dt_window now d); reflexivity. }
  destruct (Hmain nows w Hwf) as (w' & Hrun & Hlook).
  exists w'. split; [exact Hrun |]. split; [exact Hlook |].
  intros t Hin Hlast p m.
  destruct (prune_once_spec strftime dt_window t w Hwf)
    as (wt & Hrunt & _ & Hlookt).
  rewrite Hrunt. cbn [world_of]. rewrite Hlook, Hlookt.
  destruct (lookup (cache_map w) p m) as [d |]; [| reflexivity].
  assert (Heq : existsb (fun now => qualifies dt_window now d) nows
                = qualifies dt_window t d).
  { destruct (qualifies dt_window t d) eqn:Hq.
    - apply existsb_exists. exists t. auto.
    - destruct (existsb (fun now => qualifies dt_window now d) nows) eqn:He;
        [| reflexivity].
      apply existsb_exists in He. destruct He as (now & Hnow & Hqn).
      rewrite (qualifies_later dt_window now t d (Hlast now Hnow) Hqn) in Hq.
      discriminate. }
  rewrite Heq. reflexivity.
Qed.

Lemma worker_sweeps_witness :
  let w := Sample.one_record (mkRecord (Some 3) (Some 0)) in
  exists w',
    _worker Sample.strftime 5 [4; 9] w = Done w'
    /\ (forall p m,
          lookup (cache_map w') p m
          = match lookup (cache_map w) p m with
            | Some d =>
                if existsb (fun now => qualifies 5 now d) [4; 9]
                then None else Some d
            | None => None
            end)
    /\ (forall t,
          In t [4; 9] ->
          (forall now, In now [4; 9] -> now <= t) ->
          forall p m,
            lookup (cache_map w') p m
            = lookup (cache_map
                        (world_of (prune_once Sample.strftime 5 t w))) p m).
Proof.
  intros w.
  exact (worker_sweeps Sample.strftime 5 [4; 9] w
           (wf_tree_one_record (mkRecord (Some 3) (Some 0)))).
Defined.

(** ** The supervising loop *)

Section SupervisorFacts.

Variable is_alive : handle -> bool.

Lemma in_list_iff (p : Path) (l : list Path) : in_list p l = true <-> In p l.
Proof.
  unfold in_list. rewrite existsb_exists. split.
  - intros (q & Hq & Heq). destruct (eq_dec q p); [subst; assumption | discriminate].
  - intros Hin. exists p. split; [assumption |].
    destruct (eq_dec p p); congruence.
Qed.

Lemma mem_set_iff {V} (d : dict Path V) (f p : Path) (v : V) :
  mem (set d f v) p = true <-> f = p \/ mem d p = true.
Proof.
  unfold mem. destruct (eq_dec f p) as [E | E].
  - subst p. rewrite get_set_same. tauto.
  - rewrite get_set_other by assumption.
    destruct (get d p); split; auto; intros [H | H]; congruence.
Qed.

Lemma start_one_keys (sup : supervisor) (f p : Path) :
  mem (threads (start_one is_alive sup f)) p = true
  <-> f = p \/ mem (threads sup) p = true.
Proof.
  unfold start_one.
  destruct (get (threads sup) f) as [t |] eqn:Hf.
  - destruct (is_alive t); cbn [negb threads].
    + split; [auto |]. intros [E | H]; [| assumption].
      subst p. unfold mem. rewrite Hf. reflexivity.
    + apply mem_set_iff.
  - cbn [threads]. apply mem_set_iff.
Qed.

Lemma start_missing_keys (discovered : list Path) :
  forall sup p,
    mem (threads (start_missing is_alive discovered sup)) p = true
    <-> mem (threads sup) p = true \/ In p discovered.
Proof.
  induction discovered as [| f rest IH]; intros sup p; simpl.
  - tauto.
  - unfold start_missing in *. simpl. rewrite IH, start_one_keys. tauto.
Qed.

Lemma start_one_other (sup : supervisor) (f p : Path) :
  f <> p ->
  get (threads (start_one is_alive sup f)) p = get (threads sup) p.
Proof.
  intros Hne. unfold start_one.
  destruct (match get (threads sup) f with
            | Some t => negb (is_alive t)
            | None => true
            end); cbn [threads]; [| reflexivity].
  apply get_set_other. assumption.
Qed.

Lemma start_one_started (sup : supervisor) (f : Path) :
  started (start_one is_alive sup f) = started sup
  \/ started (start_one is_alive sup f)
     = started sup ++ [(f, length (started sup))].
Proof.
  unfold start_one.
  destruct (match get (threads sup) f with
            | Some t => negb (is_alive t)
            | None => true
            end); cbn [started]; auto.
Qed.

(** A thread that is tracked and alive is left alone. *)
Lemma start_missing_keeps (discovered : list Path) :
  forall sup p t,
    get (threads sup) p = Some t ->
    is_alive t = true ->
    get (threads (start_missing is_alive discovered sup)) p = Some t.
Proof.
  induction discovered as [| f rest IH]; intros sup p t Hg Ha; simpl;
    [assumption |].
  unfold start_missing in *. simpl. apply IH; [| assumption].
  destruct (eq_dec f p) as [E | E].
  - subst f. unfold start_one. rewrite Hg, Ha. exact Hg.
  - rewrite start_one_other by assumption. exact Hg.
Qed.

(** Every start of the round is for a discovered file, with a new thread. *)
Lemma start_missing_started (discovered : list Path) :
  forall sup,
    exists new,
      started (start_missing is_alive discovered sup) = started sup ++ new
      /\ Forall (fun ft => In (fst ft) discovered
                           /\ (length (started sup) <= snd ft)%nat) new.
Proof.
  induction discovered as [| f rest IH]; intros sup.
  - exists []. simpl. rewrite app_nil_r. auto.
  - unfold start_missing in *. simpl.
    destruct (IH (start_one is_alive sup f)) as (new & Hnew & Hall).
    destruct (start_one_started sup f) as [Hsame | Hone];
      rewrite ?Hsame, ?Hone in *.
    + exists new. split; [exact Hnew |].
      eapply Forall_impl; [| exact Hall]. simpl. intros ft [Hin Hle]. auto.
    + exists ((f, length (started sup)) :: new). split.
      * rewrite Hnew, <- app_assoc. reflexivity.
      * constructor; [simpl; auto |].
        eapply Forall_impl; [| exact Hall]. simpl. intros ft [Hin Hle].
        rewrite length_app in Hle. simpl in Hle. split; [auto | lia].
Qed.

Lemma start_one_tracked (n : nat) (p f : Path) (sup : supervisor) :
  (n <= length (started sup))%nat ->
  tracked_since n p sup ->
  tracked_since n p (start_one is_alive sup f).
Proof.
  intros Hn (t & Hg & Hin & Hle).
  destruct (eq_dec f p) as [E | E].
  - subst f. unfold start_one. rewrite Hg.
    destruct (is_alive t); cbn [negb].
    + exists t. auto.
    + exists (length (started sup)). cbn [threads started].
      rewrite get_set_same. split; [reflexivity |].
      split; [apply in_or_app; right; left; reflexivity | assumption].
  - exists t. rewrite start_one_other by assumption.
    split; [assumption |]. split; [| assumption].
    destruct (start_one_started sup f) as [Hs | Hs]; rewrite Hs;
      [assumption | apply in_or_app; left; assumption].
Qed.

Lemma start_one_length (sup : supervisor) (f : Path) :
  (length (started sup) <= length (started (start_one is_alive sup f)))%nat.
Proof.
  destruct (start_one_started sup f) as [Hs | Hs]; rewrite Hs;
    [lia | rewrite length_app; simpl; lia].
Qed.

Lemma start_missing_tracked (n : nat) (p : Path) (discovered : list Path) :
  forall sup,
    (n <= length (started sup))%nat ->
    tracked_since n p sup ->
    tracked_since n p (start_missing is_alive discovered sup).
Proof.
  induction discovered as [| f rest IH]; intros sup Hn Ht; [assumption |].
  unfold start_missing in *. simpl. apply IH.
  - pose proof (start_one_length sup f). lia.
  - apply start_one_tracked; assumption.
Qed.

(** A discovered file without a live thread gets a new one. *)
Lemma start_missing_starts (discovered : list Path) :
  forall sup p,
    In p discovered ->
    (get (threads sup) p = None
     \/ exists t, get (threads sup) p = Some t /\ is_alive t = false) ->
    tracked_since (length (started sup)) p
                  (start_missing is_alive discovered sup).
Proof.
  induction discovered as [| f rest IH]; intros sup p Hin Hdead; [contradiction |].
  unfold start_missing in *. simpl.
  destruct (eq_dec f p) as [E | E].
  - subst f. apply start_missing_tracked.
    + apply start_one_length.
    + unfold start_one.
      assert (Hcond : match get (threads sup) p with
                      | Some t => negb (is_alive t)
                      | None => true
                      end = true).
      { destruct Hdead as [Hg | (t & Hg & Ha)]; rewrite Hg;
          [reflexivity | rewrite Ha; reflexivity]. }
      rewrite Hcond. exists (length (started sup)). cbn [threads started].
      rewrite get_set_same. split; [reflexivity |].
      split; [apply in_or_app; right; left; reflexivity | lia].
  - destruct Hin as [Hf | Hin]; [contradiction |].
    assert (Hdead' : get (threads (start_one is_alive sup f)) p = None
                     \/ exists t, get (threads (start_one is_alive sup f)) p
                                  = Some t /\ is_alive t = false).
    { rewrite start_one_other by assumption. exact Hdead. }
    destruct (IH (start_one is_alive sup f) p Hin Hdead')
      as (t & Hg & Hst & Hle).
    exists t. split; [exact Hg |]. split; [exact Hst |].
    pose proof (start_one_length sup f). lia.
Qed.

End SupervisorFacts.

Section SupervisorDrop.

Lemma del_absent {K V} `{EqDec K} (d : dict K V) (k : K) :
  get d k = None -> del d k = d.
Proof.
  unfold del. induction d as [| [k0 v0] r IH]; simpl; [reflexivity |].
  destruct (eq_dec k0 k) as [E | E]; [discriminate |].
  intros Hg. rewrite (IH Hg). reflexivity.
Qed.

Lemma del_comm {K V} `{EqDec K} (d : dict K V) (a b : K) :
  del (del d a) b = del (del d b) a.
Proof.
  unfold del. induction d as [| [k0 v0] r IH]; simpl; [reflexivity |].
  destruct (eq_dec k0 a) as [Ea | Ea]; destruct (eq_dec k0 b) as [Eb | Eb];
    simpl; rewrite ?IH;
    try destruct (eq_dec k0 a); try destruct (eq_dec k0 b);
    try congruence; reflexivity.
Qed.

(** Whether the bucket is there or not, dropping leaves the cache without it. *)
Lemma drop_one_eq (st : supervisor * world) (f : Path) :
  drop_one st f
  = ({| threads := del (threads (fst st)) f; started := started (fst st) |},
     emit (with_cache (snd st) (del (cache_map (snd st)) f))
          [Acquire; Release]).
Proof.
  unfold drop_one. cbv zeta. unfold mem.
  destruct (get (cache_map (snd st)) f) eqn:Hg; [reflexivity |].
  rewrite (del_absent _ _ Hg). reflexivity.
Qed.

Lemma drop_one_comm (st : supervisor * world) (a b : Path) :
  drop_one (drop_one st a) b = drop_one (drop_one st b) a.
Proof.
  rewrite !drop_one_eq. cbn [fst snd threads started].
  unfold emit, with_cache. cbn [cache_map trace].
  rewrite (del_comm (threads (fst st)) a b).
  rewrite (del_comm (cache_map (snd st)) a b). reflexivity.
Qed.

(** The order in which the set of stale files is gone through is
    immaterial. *)
Lemma drop_stale_order (l1 l2 : list Path) :
  Permutation l1 l2 ->
  forall st, drop_stale l1 st = drop_stale l2 st.
Proof.
  unfold drop_stale.
  induction 1 as [| x l l' Hp IH | x y l | l l' l'' H1 IH1 H2 IH2];
    intros st; simpl.
  - reflexivity.
  - apply IH.
  - rewrite drop_one_comm. reflexivity.
  - rewrite IH1. apply IH2.
Qed.

Lemma drop_stale_spec (l : list Path) :
  forall st,
    (forall p, get (threads (fst (drop_stale l st))) p
               = if in_list p l then None else get (threads (fst st)) p)
    /\ (forall p, get (cache_map (snd (drop_stale l st))) p
                  = if in_list p l then None else get (cache_map (snd st)) p)
    /\ started (fst (drop_stale l st)) = started (fst st)
    /\ trace (snd (drop_stale l st))
       = trace (snd st) ++ flat_map (fun _ => [Acquire; Release]) l.
Proof.
  unfold drop_stale.
  induction l as [| f rest IH]; intros st; simpl.
  - rewrite app_nil_r. auto.
  - destruct (IH (drop_one st f)) as (Ht & Hc & Hs & Htr).
    rewrite drop_one_eq in *. cbn [fst snd threads started] in *.
    unfold emit, with_cache in *. cbn [cache_map trace] in *.
    split; [| split; [| split]].
    + intros p. rewrite Ht.
      destruct (in_list p rest); [rewrite orb_true_r; reflexivity |].
      rewrite orb_false_r.
      destruct (eq_dec f p) as [E | E].
      * subst. apply get_del_same.
      * apply get_del_other. assumption.
    + intros p. rewrite Hc.
      destruct (in_list p rest); [rewrite orb_true_r; reflexivity |].
      rewrite orb_false_r.
      destruct (eq_dec f p) as [E | E].
      * subst. apply get_del_same.
      * apply get_del_other. assumption.
    + exact Hs.
    + rewrite Htr, <- app_assoc. reflexivity.
Qed.

Lemma mem_In_keys {V} (d : dict Path V) (p : Path) :
  mem d p = true <-> In p (map fst d).
Proof.
  unfold mem. split.
  - destruct (get d p) as [v |] eqn:Hg; [| discriminate].
    intros _. apply get_In in Hg. apply (in_map fst) in Hg. exact Hg.
  - intros Hin. destruct (get d p) eqn:Hg; [reflexivity |].
    exfalso. exact (get_None_notin d p Hg Hin).
Qed.

Lemma stale_files_iff (sup : supervisor) (discovered : list Path) (p : Path) :
  in_list p (stale_files sup discovered) = true
  <-> mem (threads sup) p = true /\ ~ In p discovered.
Proof.
  rewrite in_list_iff. unfold stale_files. rewrite filter_In.
  rewrite <- mem_In_keys, negb_true_iff.
  split; intros [Hm Hn]; (split; [assumption |]).
  - intros Hin. apply in_list_iff in Hin. congruence.
  - destruct (in_list p discovered) eqn:E; [| reflexivity].
    apply in_list_iff in E. contradiction.
Qed.

End SupervisorDrop.

Lemma main_round_parts (is_alive : handle -> bool) (discovered : list Path)
      (sup : supervisor) (w : world) :
  let sup1 := start_missing is_alive discovered sup in
  (forall p, get (threads (fst (main_round is_alive discovered sup w))) p
             = if in_list p (stale_files sup1 discovered)
               then None else get (threads sup1) p)
  /\ started (fst (main_round is_alive discovered sup w)) = started sup1
  /\ (forall p, get (cache_map (snd (main_round is_alive discovered sup w))) p
                = if in_list p (stale_files sup1 discovered)
                  then None else get (cache_map w) p).
Proof.
  intros sup1. unfold main_round. cbv zeta. fold sup1.
  destruct (drop_stale_spec (stale_files sup1 discovered) (sup1, w))
    as (Ht & Hc & Hs & _).
  cbn [fst snd] in Ht, Hc, Hs. auto.
Qed.

(** X12: one round of the loop of [main].  Afterwards the tracked files
    are exactly the discovered ones; a tracked thread that is alive is
    kept, a discovered file without a live thread gets a newly started
    one, and every start of the round is for a discovered file; the bucket
    of a file is deleted exactly when the file was tracked and is no
    longer discovered, all other buckets are untouched; the round only
    takes and releases the lock, once per stale file.  The order in which
    the set of stale files is enumerated does not matter. *)
Theorem main_round_reconciles
        (is_alive : handle -> bool) (discovered : list Path)
        (sup : supervisor) (w : world) :
  let sup' := fst (main_round is_alive discovered sup w) in
  let w' := snd (main_round is_alive discovered sup w) in
  (forall p, mem (threads sup') p = true <-> In p discovered)
  /\ (forall p t, In p discovered ->
                  get (threads sup) p = Some t -> is_alive t = true ->
                  get (threads sup') p = Some t)
  /\ (forall p, In p discovered ->
                (get (threads sup) p = None
                 \/ exists t, get (threads sup) p = Some t
                              /\ is_alive t = false) ->
                tracked_since (length (started sup)) p sup')
  /\ (exists new,
         started sup' = started sup ++ new
         /\ Forall (fun ft => In (fst ft) discovered
                              /\ (length (started sup) <= snd ft)%nat) new)
  /\ (forall p,
         get (cache_map w') p
         = if mem (threads sup) p && negb (in_list p discovered)
           then None else get (cache_map w) p)
  /\ trace w'
     = trace w ++ flat_map (fun _ => [Acquire; Release])
                           (stale_files (start_missing is_alive discovered sup)
                                        discovered)
  /\ (forall order,
         Permutation order
                     (stale_files (start_missing is_alive discovered sup)
                                  discovered) ->
         drop_stale order (start_missing is_alive discovered sup, w)
         = main_round is_alive discovered sup w).
Proof.
  intros sup' w'. subst sup' w'. unfold main_round. cbv zeta.
  set (sup1 := start_missing is_alive discovered sup).
  destruct (drop_stale_spec (stale_files sup1 discovered) (sup1, w))
    as (Ht & Hc & Hs & Htr).
  cbn [fst snd] in Ht, Hc, Hs, Htr.
  assert (Hstale : forall p, In p discovered ->
                             in_list p (stale_files sup1 discovered) = false).
  { intros p Hin.
    destruct (in_list p (stale_files sup1 discovered)) eqn:E; [| reflexivity].
    apply stale_files_iff in E. tauto. }
  split; [| split; [| split; [| split; [| split; [| split]]]]].
  - intros p. unfold mem at 1. rewrite Ht.
    destruct (in_list p (stale_files sup1 discovered)) eqn:E.
    + apply stale_files_iff in E. split; [discriminate | tauto].
    + fold (mem (threads sup1) p). unfold sup1.
      rewrite start_missing_keys. split; [| auto].
      intros [Hm | Hin]; [| assumption].
      destruct (in_list p discovered) eqn:Ed;
        [apply in_list_iff; assumption |].
      assert (Hst : in_list p (stale_files sup1 discovered) = true).
      { apply stale_files_iff. split.
        - unfold sup1. apply start_missing_keys. auto.
        - intros Hin. apply in_list_iff in Hin. congruence. }
      congruence.
  - intros p t Hin Hg Ha. rewrite Ht, (Hstale p Hin).
    apply start_missing_keeps; assumption.
  - intros p Hin Hdead.
    destruct (start_missing_starts is_alive discovered sup p Hin Hdead)
      as (t & Hg & Hst & Hle).
    exists t. rewrite Ht, (Hstale p Hin), Hs. auto.
  - rewrite Hs. apply start_missing_started.
  - intros p. rewrite Hc.
    destruct (in_list p (stale_files sup1 discovered)) eqn:E.
    + apply stale_files_iff in E. destruct E as [Hm Hn].
      unfold sup1 in Hm. apply start_missing_keys in Hm.
      destruct Hm as [Hm | Hin]; [| contradiction].
      rewrite Hm.
      destruct (in_list p discovered) eqn:Ed;
        [apply in_list_iff in Ed; contradiction | reflexivity].
    + destruct (mem (threads sup) p) eqn:Hm; [| reflexivity].
      destruct (in_list p discovered) eqn:Ed; [reflexivity |].
      assert (Hst : in_list p (stale_files sup1 discovered) = true).
      { apply stale_files_iff. split.
        - unfold sup1. apply start_missing_keys. auto.
        - intros Hin. apply in_list_iff in Hin. congruence. }
      congruence.
  - exact Htr.
  - intros order Hperm. apply drop_stale_order. exact Hperm.
Qed.

(** X13: the loop forgets the thread of a file that drops out of the
    discovered set without stopping it; when the file is discovered again
    in a later round, a new Tailer is started for it although the first
    one is still alive. *)
Theorem rediscovered_file_gets_second_tailer
        (is_alive : handle -> bool) (gone back : list Path)
        (sup : supervisor) (w : world) (p : Path) (t : handle) :
  get (threads sup) p = Some t ->
  is_alive t = true ->
  (t < length (started sup))%nat ->
  ~ In p gone ->
  In p back ->
  let round1 := main_round is_alive gone sup w in
  let round2 := main_round is_alive back (fst round1) (snd round1) in
  get (threads (fst round1)) p = None
  /\ exists t',
      get (threads (fst round2)) p = Some t'
      /\ In (p, t') (started (fst round2))
      /\ t' <> t
      /\ is_alive t = true.
Proof.
  intros Hg Ha Hold Hgone Hback round1 round2.
  destruct (main_round_parts is_alive gone sup w) as (Ht1 & Hs1 & _).
  cbv zeta in Ht1, Hs1. fold round1 in Ht1, Hs1.
  assert (Hnone : get (threads (fst round1)) p = None).
  { rewrite Ht1.
    assert (Hst : in_list p (stale_files (start_missing is_alive gone sup) gone)
                  = true).
    { apply stale_files_iff. split; [| assumption].
      apply start_missing_keys. left.
      unfold mem. rewrite Hg. reflexivity. }
    rewrite Hst. reflexivity. }
  assert (Hlen : (length (started sup) <= length (started (fst round1)))%nat).
  { rewrite Hs1.
    destruct (start_missing_started is_alive gone sup) as (new & Hnew & _).
    rewrite Hnew, length_app. lia. }
  split; [exact Hnone |].
  destruct (main_round_parts is_alive back (fst round1) (snd round1))
    as (Ht2 & Hs2 & _).
  cbv zeta in Ht2, Hs2. fold round2 in Ht2, Hs2.
  destruct (start_missing_starts is_alive back (fst round1) p Hback
              (or_introl Hnone)) as (t' & Hg' & Hst' & Hle').
  exists t'. rewrite Ht2, Hs2.
  assert (Hnot : in_list p (stale_files
                              (start_missing is_alive back (fst round1)) back)
                 = false).
  { destruct (in_list p (stale_files
                           (start_missing is_alive back (fst round1)) back))
      eqn:E; [| reflexivity].
    apply stale_files_iff in E. tauto. }
  rewrite Hnot.
  split; [exact Hg' |]. split; [exact Hst' |]. split; [lia | exact Ha].
Qed.

Lemma rediscovered_file_gets_second_tailer_witness :
  let sup := mkSupervisor [(Sample.app_log, 0%nat)] [(Sample.app_log, 0%nat)] in
  let round1 := main_round (fun _ => true) [] sup Sample.empty_world in
  let round2 := main_round (fun _ => true) [Sample.app_log]
                           (fst round1) (snd round1) in
  get (threads (fst round1)) Sample.app_log = None
  /\ exists t',
      get (threads (fst round2)) Sample.app_log = Some t'
      /\ In (Sample.app_log, t') (started (fst round2))
      /\ t' <> 0%nat
      /\ true = true.
Proof.
  assert (Hold : (0 < 1)%nat) by lia.
  assert (Hgone : ~ In Sample.app_log []) by (simpl; tauto).
  assert (Hback : In Sample.app_log [Sample.app_log]) by (left; reflexivity).
  exact (rediscovered_file_gets_second_tailer
           (fun _ => true) [] [Sample.app_log]
           (mkSupervisor [(Sample.app_log, 0%nat)] [(Sample.app_log, 0%nat)])
           Sample.empty_world Sample.app_log 0%nat
           eq_refl eq_refl Hold Hgone Hback).
Defined.

(** X14: when a tracked file drops out of the discovered set, the round
    deletes all its records, and only its own; whatever the counts were,
    the next line read for that file is a first sight again: it is written
    at once and its record starts at count 1. *)
Theorem dropped_file_starts_afresh
        (is_alive : handle -> bool) (discovered : list Path)
        (sup : supervisor) (w : world) (p : Path) :
  mem (threads sup) p = true ->
  ~ In p discovered ->
  let w' := snd (main_round is_alive discovered sup w) in
  (forall m, lookup (cache_map w') p m = None)
  /\ (forall q m,
         mem (threads sup) q && negb (in_list q discovered) = false ->
         lookup (cache_map w') q m = lookup (cache_map w) q m)
  /\ (forall parse_datetime strftime agg_interval a t message,
         parse_log_entry parse_datetime (parse_time a) (line a)
         = Ok (Some (TsDate t), Some message) ->
         message <> [] ->
         exists w'',
           tail_line parse_datetime strftime p agg_interval a w' = Done w''
           /\ lookup (cache_map w'') p message
              = Some (mkRecord (Some 1) (Some (observe_time a)))
           /\ writes (trace w'')
              = writes (trace w')
                ++ [(destination_of p,
                     s2l "[" ++ strftime t ++ s2l "] " ++ message ++ [10%N])]).
Proof.
  intros Hm Hnot w'.
  destruct (main_round_parts is_alive discovered sup w) as (_ & _ & Hc).
  cbv zeta in Hc. fold w' in Hc.
  assert (Hstale : forall q,
             in_list q (stale_files (start_missing is_alive discovered sup)
                                    discovered)
             = mem (threads sup) q && negb (in_list q discovered)).
  { intros q.
    destruct (in_list q (stale_files (start_missing is_alive discovered sup)
                                     discovered)) eqn:E.
    - apply stale_files_iff in E. destruct E as [Hq Hn].
      apply start_missing_keys in Hq. destruct Hq as [Hq | Hin];
        [| contradiction].
      rewrite Hq.
      destruct (in_list q discovered) eqn:Ed;
        [apply in_list_iff in Ed; contradiction | reflexivity].
    - destruct (mem (threads sup) q) eqn:Hq; [| reflexivity].
      destruct (in_list q discovered) eqn:Ed; [reflexivity |].
      assert (Hst : in_list q (stale_files
                                 (start_missing is_alive discovered sup)
                                 discovered) = true).
      { apply stale_files_iff. split.
        - apply start_missing_keys. auto.
        - intros Hin. apply in_list_iff in Hin. congruence. }
      congruence. }
  assert (Hgone : forall m, lookup (cache_map w') p m = None).
  { intros m. unfold lookup. rewrite Hc, Hstale, Hm.
    destruct (in_list p discovered) eqn:Ed;
      [apply in_list_iff in Ed; contradiction | reflexivity]. }
  split; [exact Hgone |]. split.
  - intros q m Hq. unfold lookup. rewrite Hc, Hstale, Hq. reflexivity.
  - intros parse_datetime strftime agg_interval a t message Hp Hne.
    exact (tail_line_first_sight parse_datetime strftime p agg_interval a w'
             t message Hp Hne (Hgone message)).
Qed.

Lemma dropped_file_starts_afresh_witness :
  let sup := mkSupervisor [(Sample.app_log, 0%nat)] [(Sample.app_log, 0%nat)] in
  let w := Sample.one_record (mkRecord (Some 7) (Some 0)) in
  let w' := snd (main_round (fun _ => true) [] sup w) in
  lookup (cache_map w) Sample.app_log (s2l "m")
  = Some (mkRecord (Some 7) (Some 0))
  /\ lookup (cache_map w') Sample.app_log (s2l "m") = None.
Proof.
  intros sup w w'.
  assert (Hnot : ~ In Sample.app_log []) by (simpl; tauto).
  destruct (dropped_file_starts_afresh (fun _ => true) [] sup w Sample.app_log
              eq_refl Hnot) as [Hgone _].
  split; [reflexivity | exact (Hgone (s2l "m"))].
Defined.

Lemma observed_then_swept_witness :
  exists w1 w2 l1 l2,
    tail_file Sample.parse_datetime Sample.strftime Sample.app_log 5
              [Sample.plain "m" 0; Sample.plain "m" 1; Sample.plain "m" 2]
              Sample.empty_world
    = Done w1
    /\ writes (trace w1)
       = [(Sample.app_agg_log, s2l "[0] m" ++ [10%N])]
    /\ prune_once Sample.strftime 5 6 w1 = Done w2
    /\ lookup (cache_map w2) Sample.app_log (s2l "m") = None
    /\ scan 5 6 (cache_map w1)
       = l1 ++ (Sample.app_log, s2l "m", mkRecord (Some 3) (Some 0)) :: l2
    /\ ~ In (Sample.app_log, s2l "m") (map key (l1 ++ l2))
    /\ trace w2
       = trace w1 ++ [Acquire]
           ++ reports Sample.strftime 6 l1
           ++ [dump_log_to_file Sample.app_log (Sample.strftime 6)
                 (s2l "m (occurred 3 times)")]
           ++ reports Sample.strftime 6 l2
           ++ [Release].
Proof.
  assert (Hwf : wf_tree (cache_map Sample.empty_world)).
  { split; constructor. }
  assert (Hne : s2l "m" <> []) by discriminate.
  assert (Hage : 5 < 6 - 0) by lia.
  assert (Hrest : Forall (repeats Sample.parse_datetime 5 (s2l "m") 0)
                         [Sample.plain "m" 1; Sample.plain "m" 2]).
  { apply Forall_cons; [| apply Forall_cons; [| apply Forall_nil]].
    - split; [exists (Some (TsDate 1)); reflexivity | reflexivity].
    - split; [exists (Some (TsDate 2)); reflexivity | reflexivity]. }
  exact (observed_then_swept Sample.parse_datetime Sample.strftime
           Sample.app_log 5 (s2l "m") (Sample.plain "m" 0)
           [Sample.plain "m" 1; Sample.plain "m" 2]
           Sample.empty_world 0 6 Hwf Hne eq_refl eq_refl Hrest Hage).
Defined.

(** ** Tailers of different files *)

Section Isolation.

Variable strftime : datetime -> str.

Lemma bucket_of_set_same (w : world) (cm : CacheTree) (f : Path) (b : Bucket) :
  bucket_of (with_cache w (set cm f b)) f = b.
Proof.
  unfold bucket_of, with_cache. cbn [cache_map].
  rewrite get_set_same. reflexivity.
Qed.

Lemma bucket_of_set_other (w : world) (cm : CacheTree) (f g : Path)
      (b : Bucket) :
  g <> f ->
  bucket_of (with_cache w (set cm g b)) f
  = match get cm f with Some c => c | None => [] end.
Proof.
  intros Hne. unfold bucket_of, with_cache. cbn [cache_map].
  rewrite get_set_other by assumption. reflexivity.
Qed.

Lemma bucket_of_emit (w : world) (evs : list event) (f : Path) :
  bucket_of (emit w evs) f = bucket_of w f.
Proof. reflexivity. Qed.

(** What a step of a Tailer does to its bucket and to its own position
    depends on that bucket only. *)
Lemma step_tailer_same_bucket (f : Path) (agg : timedelta)
      (ts : option stamp) (msg : str) (now : datetime) (at_ : pc)
      (w1 w2 : world) :
  bucket_of w1 f = bucket_of w2 f ->
  fst (step_tailer strftime f agg ts msg now at_ w1)
  = fst (step_tailer strftime f agg ts msg now at_ w2)
  /\ bucket_of (snd (step_tailer strftime f agg ts msg now at_ w1)) f
     = bucket_of (snd (step_tailer strftime f agg ts msg now at_ w2)) f.
Proof.
  intros Hb. destruct at_; cbn [step_tailer fst snd].
  - split; [reflexivity |].
    unfold setdefault_bucket. cbn [snd].
    rewrite !bucket_of_emit, !bucket_of_set_same. exact Hb.
  - rewrite Hb. split; first [reflexivity | exact Hb].
  - rewrite Hb.
    destruct (process_log strftime (bucket_of w2 f) f msg agg now)
      as [[cache' evs] | e]; cbn [fst snd].
    + split; [reflexivity |].
      rewrite !bucket_of_emit, !bucket_of_set_same. reflexivity.
    + split; first [reflexivity | exact Hb].
  - destruct ts as [[t | raw] |]; cbn [fst snd];
      (split; [reflexivity |]); rewrite ?bucket_of_emit; exact Hb.
  - split; [reflexivity |].
    rewrite !bucket_of_set_same, Hb. reflexivity.
  - split; [reflexivity | exact Hb].
  - split; [reflexivity | exact Hb].
Qed.

(** A step of a Tailer leaves the buckets of the other files alone. *)
Lemma step_tailer_other_bucket (f g : Path) (agg : timedelta)
      (ts : option stamp) (msg : str) (now : datetime) (at_ : pc) (w : world) :
  g <> f ->
  bucket_of (snd (step_tailer strftime g agg ts msg now at_ w)) f
  = bucket_of w f.
Proof.
  intros Hne. destruct at_; cbn [step_tailer snd]; try reflexivity.
  - unfold setdefault_bucket. cbn [snd].
    rewrite bucket_of_emit. apply bucket_of_set_other. assumption.
  - destruct (process_log strftime (bucket_of w g) g msg agg now)
      as [[cache' evs] | e]; cbn [snd]; [| reflexivity].
    rewrite bucket_of_emit. apply bucket_of_set_other. assumption.
  - destruct ts as [[t | raw] |]; reflexivity.
  - apply bucket_of_set_other. assumption.
Qed.

(** The thread numbered [k] moves, the others stay. *)
Lemma step_nth_spec (k : nat) :
  forall (ts : list thread) (w : world),
    match nth_error ts k with
    | None => step_nth strftime k ts w = (ts, w)
    | Some t =>
        snd (step_nth strftime k ts w) = snd (step strftime t w)
        /\ nth_error (fst (step_nth strftime k ts w)) k
           = Some (fst (step strftime t w))
        /\ forall j, j <> k ->
                     nth_error (fst (step_nth strftime k ts w)) j
                     = nth_error ts j
    end.
Proof.
  induction k as [| k IH]; intros [| t rest] w; simpl; try reflexivity.
  - destruct (step strftime t w) as [t' w'] eqn:Hs. simpl.
    split; [reflexivity |]. split; [reflexivity |].
    intros [| j] Hj; [congruence | reflexivity].
  - specialize (IH rest w).
    destruct (nth_error rest k) as [u |] eqn:Hk.
    + destruct IH as (Hw & Hk' & Hother).
      destruct (step_nth strftime k rest w) as [rest' w'] eqn:Hs.
      simpl in *. split; [exact Hw |]. split; [exact Hk' |].
      intros [| j] Hj; [reflexivity |]. simpl. apply Hother. congruence.
    + rewrite IH. reflexivity.
Qed.

Lemma steps_alone_step (f : Path) (agg : timedelta) (ts : option stamp)
      (msg : str) (now : datetime) (n : nat) (st : pc * world) :
  steps_alone strftime f agg ts msg now (S n) st
  = steps_alone strftime f agg ts msg now n
      (step_tailer strftime f agg ts msg now (fst st) (snd st)).
Proof. reflexivity. Qed.

Lemma run_isolated (f : Path) (agg : timedelta) (stamp_ : option stamp)
      (msg : str) (now : datetime) (i : nat) (schedule : list nat) :
  forall (ts : list thread) (w : world) (at_ : pc) (w_s : world),
    nth_error ts i = Some (Tailer f agg stamp_ msg now at_) ->
    others_elsewhere f i ts ->
    bucket_of w f = bucket_of w_s f ->
    let solo := steps_alone strftime f agg stamp_ msg now
                            (count_occ Nat.eq_dec schedule i) (at_, w_s) in
    nth_error (fst (run strftime schedule ts w)) i
    = Some (Tailer f agg stamp_ msg now (fst solo))
    /\ bucket_of (snd (run strftime schedule ts w)) f = bucket_of (snd solo) f.
Proof.
  induction schedule as [| k later IH]; intros ts w at_ w_s Hi Hothers Hb solo;
    subst solo.
  - simpl. auto.
  - cbn [run]. pose proof (step_nth_spec k ts w) as Hstep.
    destruct (step_nth strftime k ts w) as [ts' w'] eqn:Hs.
    cbn [fst snd] in Hstep.
    destruct (Nat.eq_dec k i) as [E | E].
    + subst k. rewrite Hi in Hstep. destruct Hstep as (Hw & Hk & Hother).
      cbn [count_occ]. destruct (Nat.eq_dec i i) as [_ | C]; [| congruence].
      rewrite steps_alone_step. cbn [fst snd].
      cbn [step] in Hw, Hk.
      destruct (step_tailer_same_bucket f agg stamp_ msg now at_ w w_s Hb)
        as [Hpc Hbucket].
      destruct (step_tailer strftime f agg stamp_ msg now at_ w)
        as [at1 w1] eqn:H1.
      destruct (step_tailer strftime f agg stamp_ msg now at_ w_s)
        as [at2 w2] eqn:H2.
      cbn [fst snd] in *. subst at2 w'.
      apply (IH ts' w1 at1 w2); [exact Hk | | exact Hbucket].
      intros j t Hj Hnth. rewrite (Hother j Hj) in Hnth.
      exact (Hothers j t Hj Hnth).
    + cbn [count_occ]. destruct (Nat.eq_dec k i) as [C | _]; [congruence |].
      destruct (nth_error ts k) as [t |] eqn:Hk.
      * destruct Hstep as (Hw & Hk' & Hother).
        destruct (Hothers k t E Hk) as (g & a & s & m & n & q & Ht & Hg).
        subst t. cbn [step] in Hw, Hk'.
        destruct (step_tailer strftime g a s m n q w) as [q' wq] eqn:Hq.
        cbn [fst snd] in Hw, Hk'. subst w'.
        apply (IH ts' wq at_ w_s).
        -- rewrite (Hother i (not_eq_sym E)). exact Hi.
        -- intros j t Hj Hnth.
           destruct (Nat.eq_dec j k) as [Ej | Ej].
           ++ subst j. rewrite Hk' in Hnth. inversion Hnth; subst.
              exists g, a, s, m, n, q'. auto.
           ++ rewrite (Hother j Ej) in Hnth. exact (Hothers j t Hj Hnth).
        -- rewrite <- Hb.
           pose proof (step_tailer_other_bucket f g a s m n q w Hg) as Ho.
           rewrite Hq in Ho. exact Ho.
      * inversion Hstep; subst ts' w'.
        apply (IH ts w at_ w_s); assumption.
Qed.

End Isolation.

(** X16: Tailers of different files do not interfere.  Whatever the
    schedule, when all the other threads are Tailers of other files, the
    position a Tailer has reached and the bucket of its file are those it
    would have after making its steps with no other thread moving. *)
Theorem tailers_isolated
        (strftime : datetime -> str) (schedule : list nat)
        (ts : list thread) (w : world) (i : nat)
        (file_path : Path) (agg_interval : timedelta)
        (timestamp : option stamp) (message : str) (now : datetime)
        (at_ : pc) :
  nth_error ts i
  = Some (Tailer file_path agg_interval timestamp message now at_) ->
  others_elsewhere file_path i ts ->
  let solo := steps_alone strftime file_path agg_interval timestamp message now
                          (count_occ Nat.eq_dec schedule i) (at_, w) in
  nth_error (fst (run strftime schedule ts w)) i
  = Some (Tailer file_path agg_interval timestamp message now (fst solo))
  /\ bucket_of (snd (run strftime schedule ts w)) file_path
     = bucket_of (snd solo) file_path
  /\ forall m, lookup (cache_map (snd (run strftime schedule ts w)))
                      file_path m
               = lookup (cache_map (snd solo)) file_path m.
Proof.
  intros Hi Hothers solo.
  destruct (run_isolated strftime file_path agg_interval timestamp message now
              i schedule ts w at_ w Hi Hothers eq_refl) as [Hpc Hb].
  fold solo in Hpc, Hb.
  split; [exact Hpc |]. split; [exact Hb |].
  intros m. unfold bucket_of in Hb. unfold lookup.
  destruct (get (cache_map (snd (run strftime schedule ts w))) file_path)
    as [b1 |];
    destruct (get (cache_map (snd solo)) file_path) as [b2 |];
    subst; reflexivity.
Qed.

Lemma tailers_isolated_witness :
  let t0 := Tailer Sample.app_log 5 (Some (TsDate 0)) (s2l "m") 0 AtSetdefault in
  let t1 := Tailer Sample.web_log 5 (Some (TsDate 0)) (s2l "m") 0 AtSetdefault in
  let schedule := [1; 0; 1; 0; 1; 1; 0; 0]%nat in
  let solo := steps_alone Sample.strftime Sample.app_log 5 (Some (TsDate 0))
                          (s2l "m") 0 (count_occ Nat.eq_dec schedule 0%nat)
                          (AtSetdefault, Sample.empty_world) in
  nth_error (fst (run Sample.strftime schedule [t0; t1] Sample.empty_world))
            0%nat
  = Some (Tailer Sample.app_log 5 (Some (TsDate 0)) (s2l "m") 0 (fst solo))
  /\ bucket_of (snd (run Sample.strftime schedule [t0; t1] Sample.empty_world))
               Sample.app_log
     = bucket_of (snd solo) Sample.app_log
  /\ forall m,
       lookup (cache_map
                 (snd (run Sample.strftime schedule [t0; t1]
                           Sample.empty_world)))
              Sample.app_log m
       = lookup (cache_map (snd solo)) Sample.app_log m.
Proof.
  intros t0 t1 schedule.
  assert (Hothers : others_elsewhere Sample.app_log 0%nat [t0; t1]).
  { intros j t Hj Hnth. destruct j as [| [| j]].
    - congruence.
    - simpl in Hnth. inversion Hnth; subst.
      exists Sample.web_log, 5, (Some (TsDate 0)), (s2l "m"), 0, AtSetdefault.
      split; [reflexivity | discriminate].
    - simpl in Hnth. destruct j; discriminate. }
  exact (tailers_isolated Sample.strftime schedule [t0; t1] Sample.empty_world
           0%nat Sample.app_log 5 (Some (TsDate 0)) (s2l "m") 0 AtSetdefault
           eq_refl Hothers).
Defined.

(** ** A whole run of a Tailer *)

(** X17: a run of [tail_file].  Reading [lines] and then [more] is
    reading [lines ++ more], and once a line has made the Tailer fail no
    later line is processed.  Over a whole run the Tailer never writes
    while it holds the lock, and it writes at most one line for each line
    it reads. *)
Theorem tail_file_run
        (parse_datetime : str -> dt_parse) (strftime : datetime -> str)
        (file_path : Path) (agg_interval : timedelta)
        (lines more : list arrival) (w : world) :
  tail_file parse_datetime strftime file_path agg_interval (lines ++ more) w
  = match tail_file parse_datetime strftime file_path agg_interval lines w with
    | Done w1 =>
        tail_file parse_datetime strftime file_path agg_interval more w1
    | Crash e w1 => Crash e w1
    end
  /\ exists evs,
      trace (world_of
               (tail_file parse_datetime strftime file_path agg_interval
                          lines w))
      = trace w ++ evs
      /\ no_write_while_held false evs = true
      /\ (length (writes evs) <= length lines)%nat.
Proof.
  split.
  { revert w.
      induction lines as [| a rest IH]; intros w; simpl; [reflexivity |].
      destruct (tail_line parse_datetime strftime file_path agg_interval a w)
        as [w1 | e w1]; [apply IH | reflexivity]. }
  { revert w.
      induction lines as [| a rest IH]; intros w.
      - exists []. simpl. rewrite app_nil_r. auto.
      - cbn [tail_file].
        assert (Hstep : exists evs,
                   trace (world_of (tail_line parse_datetime strftime file_path
                                              agg_interval a w))
                   = trace w ++ evs
                   /\ (forall later,
                          no_write_while_held false (evs ++ later)
                          = no_write_while_held false later)
                   /\ (length (writes evs) <= 1)%nat).
        { destruct (tail_line_effect parse_datetime strftime file_path
                      agg_interval a w)
            as [[Hsame _] | (ts & message & _ & _ & _ & _ & evs & Htr & Hevs)];
            cbv zeta in *.
          - exists []. rewrite Hsame, app_nil_r. simpl. auto.
          - exists (Acquire :: Release :: evs). split; [exact Htr |].
            destruct Hevs as [Hnil | (d & l & Hone)]; subst evs; simpl; auto. }
        destruct Hstep as (evs & Htr & Hlock & Hlen).
        destruct (tail_line parse_datetime strftime file_path agg_interval a w)
          as [w1 | e w1]; cbn [world_of] in Htr.
        + destruct (IH w1) as (evs' & Htr' & Hlock' & Hlen').
          exists (evs ++ evs'). split; [rewrite Htr', Htr, app_assoc; reflexivity |].
          split; [rewrite Hlock; exact Hlock' |].
          rewrite writes_app, length_app. simpl. lia.
        + exists evs. cbn [world_of]. split; [exact Htr |].
          split.
          * rewrite <- (app_nil_r evs), Hlock. reflexivity.
          * simpl. lia. }
Qed.

(** ** The bracketed text *)

Lemma find_split (c : char) (s : str) :
  forall i,
    find c s = Some i ->
    s = firstn i s ++ c :: skipn (S i) s
    /\ contains_char c (firstn i s) = false.
Proof.
  induction s as [| d r IH]; intros i; simpl; [discriminate |].
  destruct (N.eqb d c) eqn:E.
  - intros Hi. inversion Hi; subst. apply N.eqb_eq in E. subst d.
    simpl. auto.
  - destruct (find c r) as [j |]; [| discriminate].
    intros Hi. inversion Hi; subst.
    destruct (IH j eq_refl) as [Hs Hc].
    cbn [firstn skipn]. split.
    + simpl. f_equal. exact Hs.
    + unfold contains_char in *. simpl. rewrite (N.eqb_sym c d), E.
      exact Hc.
Qed.

(** X18: when [parse_log_entry] falls back to the raw text, that text is
    exactly what stands between the opening bracket and the first closing
    bracket of the trimmed line, the date parser has refused it with
    [ValueError], and the message is what follows that bracket, trimmed. *)
Theorem parse_log_entry_raw_timestamp
        (parse_datetime : str -> dt_parse) (now : datetime) (entry : str)
        (raw message : str) :
  parse_log_entry parse_datetime now entry
  = Ok (Some (TsRaw raw), Some message) ->
  exists rest,
    strip entry = lbracket :: raw ++ rbracket :: rest
    /\ contains_char rbracket raw = false
    /\ parse_datetime raw = DtValueError
    /\ message = strip rest.
Proof.
  unfold parse_log_entry.
  destruct (strip entry) as [| c r] eqn:Hs; [discriminate |].
  destruct (startswith lbracket (c :: r)) eqn:Hsw; cbn [andb];
    [| discriminate].
  destruct (contains_char rbracket (c :: r)); [| discriminate].
  destruct (find rbracket (c :: r)) as [i |] eqn:Hf; [| discriminate].
  cbn [startswith] in Hsw. apply N.eqb_eq in Hsw. subst c.
  cbn [find] in Hf. change (N.eqb lbracket rbracket) with false in Hf.
  cbv iota in Hf.
  destruct (find rbracket r) as [j |] eqn:Hj; [| discriminate].
  inversion Hf; subst i.
  destruct (find_split rbracket r j Hj) as [Hsplit Hnone].
  unfold slice, slice_from. cbn [skipn].
  replace (S j - 1)%nat with j by lia.
  replace (S j + 1)%nat with (S (S j)) by lia. cbn [skipn].
  destruct (parse_datetime (firstn j r)) as [t | | e] eqn:Hp;
    intros Heq; inversion Heq; subst.
  exists (skipn (S j) r).
  split; [f_equal; exact Hsplit |]. auto.
Qed.

Lemma parse_log_entry_raw_timestamp_witness :
  exists rest,
    strip (s2l " [garbled] hello ")
    = lbracket :: s2l "garbled" ++ rbracket :: rest
    /\ contains_char rbracket (s2l "garbled") = false
    /\ Sample.parse_datetime (s2l "garbled") = DtValueError
    /\ s2l "hello" = strip rest.
Proof.
  exact (parse_log_entry_raw_timestamp Sample.parse_datetime 0
           (s2l " [garbled] hello ") (s2l "garbled") (s2l "hello") eq_refl).
Defined.

(** ** The configuration *)

Lemma get_merge_step (merged : Config) (k k' : str) (v : yaml) :
  get (set merged k v) k'
  = if str_eq_dec k k' then Some v else get merged k'.
Proof.
  destruct (str_eq_dec k k') as [E | E].
  - subst. apply get_set_same.
  - apply get_set_other. assumption.
Qed.

Lemma get_merge_configs (config_data : Config) :
  forall (defaults : Config) (k : str),
    wf config_data ->
    get (merge_configs defaults config_data) k
    = match get config_data k with
      | Some v => Some v
      | None => get defaults k
      end.
Proof.
  unfold merge_configs, wf.
  induction config_data as [| [k0 v0] rest IH]; intros defaults k Hwf; simpl;
    [reflexivity |].
  inversion Hwf as [| ? ? Hfresh Hnd]; subst.
  rewrite (IH _ k Hnd). rewrite get_merge_step.
  unfold eq_dec, str_EqDec.
  destruct (str_eq_dec k0 k) as [E | E]; [| reflexivity].
  subst k0.
  destruct (get rest k) as [v |] eqn:Hg; [| reflexivity].
  exfalso. apply Hfresh. apply get_In in Hg.
  apply (in_map fst) in Hg. exact Hg.
Qed.

(** X19: the merge [{**DEFAULT_CONFIGS, **config_data}] of
    [parse_options]: a key that the file defines has the value of the
    file, any other key keeps its default; so each of the eight options
    that [parse_options] reads is present whatever the file holds, and
    the lookups [merged_configs[...]] cannot raise [KeyError]. *)
Theorem merged_config_lookup (config_data : Config) (k : str) :
  wf config_data ->
  get (merge_configs DEFAULT_CONFIGS config_data) k
  = match get config_data k with
    | Some v => Some v
    | None => get DEFAULT_CONFIGS k
    end
  /\ (In k option_keys ->
      exists v, get (merge_configs DEFAULT_CONFIGS config_data) k = Some v).
Proof.
  intros Hwf.
  pose proof (get_merge_configs config_data DEFAULT_CONFIGS k Hwf) as Hget.
  split; [exact Hget |].
  intros Hin. rewrite Hget.
  destruct (get config_data k) as [v |]; [eauto |].
  unfold option_keys in Hin. simpl in Hin.
  repeat (destruct Hin as [Hk | Hin]; [subst k; eexists; reflexivity |]).
  contradiction.
Qed.

Lemma merged_config_lookup_witness :
  let config_data := [(s2l "agg-interval", YInt 60)] in
  get (merge_configs DEFAULT_CONFIGS config_data) (s2l "agg-interval")
  = Some (YInt 60)
  /\ (In (s2l "agg-interval") option_keys ->
      exists v, get (merge_configs DEFAULT_CONFIGS config_data)
                    (s2l "agg-interval") = Some v).
Proof.
  intros config_data.
  assert (Hwf : wf config_data).
  { unfold wf. simpl. constructor; [simpl; tauto | constructor]. }
  exact (merged_config_lookup config_data (s2l "agg-interval") Hwf).
Defined.

(** ** What a sweep removes and what it writes *)





(** X21: discovery and supervision together: after a round of the loop on
    the files that [discover_files] returns, no tracked file has a stem
    containing ["-agg"], so no Tailer is kept or started on the output
    file of any source; every thread started in the round is for such a
    file as well. *)
Theorem main_round_never_tails_output
        (glob : str -> list str) (resolve : str -> Path)
        (is_alive : handle -> bool) (patterns : list str)
        (sup : supervisor) (w : world) :
  let discovered := discover_files glob resolve patterns in
  let sup' := fst (main_round is_alive discovered sup w) in
  (forall p,
      mem (threads sup') p = true ->
      contains agg_marker (stem p) = false
      /\ forall source_file, p <> destination_of source_file)
  /\ exists new,
      started sup' = started sup ++ new
      /\ Forall (fun ft => contains agg_marker (stem (fst ft)) = false) new.
Proof.
  intros discovered sup'.
  destruct (main_round_parts is_alive discovered sup w) as (Ht & Hs & _).
  cbv zeta in Ht, Hs. fold sup' in Ht, Hs.
  assert (Hclean : forall p, In p discovered ->
                             contains agg_marker (stem p) = false).
  { intros p Hin. unfold discovered, discover_files in Hin.
    apply in_flat_map in Hin. destruct Hin as (pattern & _ & Hin).
    apply filter_In in Hin. destruct Hin as [_ Hstem].
    apply negb_true_iff in Hstem. exact Hstem. }
  split.
  - intros p Hm.
    assert (Hin : In p discovered).
    { unfold mem in Hm. rewrite Ht in Hm.
      destruct (in_list p (stale_files
                             (start_missing is_alive discovered sup)
                             discovered)) eqn:E; [discriminate |].
      fold (mem (threads (start_missing is_alive discovered sup)) p) in Hm.
      destruct (in_list p discovered) eqn:Ed;
        [apply in_list_iff; exact Ed |].
      assert (Hst : in_list p (stale_files
                                 (start_missing is_alive discovered sup)
                                 discovered) = true).
      { apply stale_files_iff. split; [exact Hm |].
        intros Hin. apply in_list_iff in Hin. congruence. }
      congruence. }
    split; [exact (Hclean p Hin) |].
    intros source_file Heq. subst p.
    pose proof (Hclean _ Hin) as Hstem.
    rewrite contains_agg_destination in Hstem. discriminate.
  - destruct (start_missing_started is_alive discovered sup)
      as (new & Hnew & Hall).
    exists new. rewrite Hs. split; [exact Hnew |].
    eapply Forall_impl; [| exact Hall].
    intros ft [Hin _]. exact (Hclean _ Hin).
Qed.

(** X22: a message whose record a sweep has removed is new again: when
    its line arrives after the sweep it is written at once and a record
    with count 1 opens a new window at that time. *)
Theorem swept_message_is_new_again
        (parse_datetime : str -> dt_parse) (strftime : datetime -> str)
        (dt_window : timedelta) (now : datetime) (w : world)
        (file_path : Path) (a : arrival) (t : datetime) (message : str)
        (d : CacheRecord) :
  wf_tree (cache_map w) ->
  lookup (cache_map w) file_path message = Some d ->
  qualifies dt_window now d = true ->
  parse_log_entry parse_datetime (parse_time a) (line a)
  = Ok (Some (TsDate t), Some message) ->
  message <> [] ->
  exists w1 w2,
    prune_once strftime dt_window now w = Done w1
    /\ tail_line parse_datetime strftime file_path dt_window a w1 = Done w2
    /\ lookup (cache_map w2) file_path message
       = Some (mkRecord (Some 1) (Some (observe_time a)))
    /\ writes (trace w2)
       = writes (trace w1)
         ++ [(destination_of file_path,
              s2l "[" ++ strftime t ++ s2l "] " ++ message ++ [10%N])].
Proof.
  intros Hwf Hl Hq Hp Hne.
  destruct (prune_once_removes strftime dt_window now w file_path message d
              Hwf Hl Hq) as (w1 & l1 & l2 & Hrun & Hgone & _).
  destruct (tail_line_first_sight parse_datetime strftime file_path dt_window
              a w1 t message Hp Hne Hgone) as (w2 & Hstep & Hrec & Hwr).
  exists w1, w2. auto.
Qed.

Lemma swept_message_is_new_again_witness :
  let w := Sample.one_record (mkRecord (Some 3) (Some 0)) in
  exists w1 w2,
    prune_once Sample.strftime 5 10 w = Done w1
    /\ tail_line Sample.parse_datetime Sample.strftime Sample.app_log 5
                 (Sample.plain "m" 11) w1 = Done w2
    /\ lookup (cache_map w2) Sample.app_log (s2l "m")
       = Some (mkRecord (Some 1) (Some 11))
    /\ writes (trace w2)
       = writes (trace w1)
         ++ [(destination_of Sample.app_log,
              s2l "[" ++ Sample.strftime 11 ++ s2l "] " ++ s2l "m" ++ [10%N])].
Proof.
  intros w.
  assert (Hne : s2l "m" <> []) by discriminate.
  exact (swept_message_is_new_again Sample.parse_datetime Sample.strftime
           5 10 w Sample.app_log (Sample.plain "m" 11) 11 (s2l "m")
           (mkRecord (Some 3) (Some 0))
           (wf_tree_one_record (mkRecord (Some 3) (Some 0)))
           eq_refl eq_refl eq_refl Hne).
Defined.

(** ** The records the program makes *)

Lemma Forall_del {K V : Type} `{EqDec K} (P : K * V -> Prop)
      (d : dict K V) (k : K) :
  Forall P d -> Forall P (del d k).
Proof.
  unfold del. intros Hd. induction Hd as [| kv r Hx Hr IH]; simpl;
    [constructor |].
  destruct (eq_dec (fst kv) k); [assumption | constructor; assumption].
Qed.

Lemma complete_get (cm : CacheTree) (f : Path) (cache : Bucket) :
  complete_records cm -> get cm f = Some cache -> complete_bucket cache.
Proof.
  intros Hcm Hg. apply get_In in Hg.
  unfold complete_records in Hcm. rewrite Forall_forall in Hcm.
  exact (Hcm (f, cache) Hg).
Qed.

Lemma complete_bucket_of (w : world) (f : Path) :
  complete_records (cache_map w) -> complete_bucket (bucket_of w f).
Proof.
  intros Hcm. unfold bucket_of.
  destruct (get (cache_map w) f) as [b |] eqn:Hg.
  - exact (complete_get _ _ _ Hcm Hg).
  - constructor.
Qed.

Lemma complete_set_bucket (cm : CacheTree) (f : Path) (cache : Bucket) :
  complete_records cm -> complete_bucket cache ->
  complete_records (set cm f cache).
Proof.
  intros Hcm Hb. apply Forall_set; [exact Hcm | intros k; exact Hb].
Qed.

Lemma complete_set_record (cache : Bucket) (msg : str) (c : Z) (fs : datetime) :
  complete_bucket cache ->
  complete_bucket (set cache msg (mkRecord (Some c) (Some fs))).
Proof.
  intros Hb. apply Forall_set; [exact Hb |].
  intros k. exists c, fs. reflexivity.
Qed.

Lemma complete_setdefault (f : Path) (w : world) :
  complete_records (cache_map w) ->
  complete_bucket (fst (setdefault_bucket f w))
  /\ complete_records (cache_map (snd (setdefault_bucket f w))).
Proof.
  intros Hcm.
  assert (Hb : complete_bucket (fst (setdefault_bucket f w)))
    by exact (complete_bucket_of w f Hcm).
  split; [exact Hb |].
  unfold setdefault_bucket in *. cbn [fst snd emit with_cache cache_map] in *.
  apply complete_set_bucket; assumption.
Qed.

Lemma complete_process_log (strftime : datetime -> str)
      (cache cache' : Bucket) (f : Path) (msg : str) (agg : timedelta)
      (now : datetime) (evs : list event) :
  complete_bucket cache ->
  process_log strftime cache f msg agg now = Ok (cache', evs) ->
  complete_bucket cache'.
Proof.
  intros Hb Hpl.
  destruct (process_log_cases strftime cache f msg agg now)
    as [[Hraise _] | (c & fs & _ & [[_ Heq] | [_ Heq]])];
    rewrite ?Hraise, ?Heq in Hpl; inversion Hpl; subst.
  - apply complete_set_record. exact Hb.
  - apply Forall_del. exact Hb.
Qed.

Lemma complete_tail_line (parse_datetime : str -> dt_parse)
      (strftime : datetime -> str) (file_path : Path)
      (agg_interval : timedelta) (a : arrival) (w : world) :
  complete_records (cache_map w) ->
  complete_records
    (cache_map (world_of (tail_line parse_datetime strftime file_path
                                    agg_interval a w))).
Proof.
  intros Hcm.
  destruct (complete_setdefault file_path w Hcm) as [Hb Hw1].
  destruct (tail_line_cases parse_datetime strftime file_path agg_interval a w)
    as [[[Ho | [e Ho]] _]
       | (ts & message & _ & _ & [(r & _ & Ho) | (_ & Ho)])];
    cbv zeta in Ho; rewrite Ho; cbn [world_of]; try exact Hcm.
  - destruct (process_log strftime (fst (setdefault_bucket file_path w))
                          file_path message agg_interval (observe_time a))
      as [[cache' evs] | e] eqn:Hpl; cbn [world_of emit with_cache cache_map];
      [| exact Hw1].
    apply complete_set_bucket; [exact Hw1 |].
    exact (complete_process_log _ _ _ _ _ _ _ _ Hb Hpl).
  - destruct ts as [[t | raw] |]; cbn [world_of emit with_cache cache_map];
      try exact Hw1.
    apply complete_set_bucket; [exact Hw1 |].
    apply complete_set_record. exact Hb.
Qed.

Lemma complete_remove_loop (strftime : datetime -> str) (now : datetime)
      (l : list (Path * str * CacheRecord)) :
  forall w,
    complete_records (cache_map w) ->
    complete_records (cache_map (world_of (remove_loop strftime now l w))).
Proof.
  induction l as [| [[path msg] data] rest IH]; intros w Hcm; simpl;
    [assumption |].
  destruct (get (cache_map w) path) as [cache |] eqn:Hg; [| assumption].
  apply IH. unfold emit, with_cache; cbn [cache_map].
  apply complete_set_bucket; [assumption |].
  apply Forall_del. exact (complete_get _ _ _ Hcm Hg).
Qed.

Lemma complete_prune_once (strftime : datetime -> str)
      (dt_window : timedelta) (now : datetime) (w : world) :
  complete_records (cache_map w) ->
  complete_records
    (cache_map (world_of (prune_once strftime dt_window now w))).
Proof.
  intros Hcm. unfold prune_once.
  pose proof (complete_remove_loop strftime now
                (scan dt_window now (cache_map (emit w [Acquire])))
                (emit w [Acquire]) Hcm) as Hloop.
  destruct (remove_loop strftime now
              (scan dt_window now (cache_map (emit w [Acquire])))
              (emit w [Acquire])) as [w' | e w']; exact Hloop.
Qed.

Lemma complete_drop_stale (l : list Path) :
  forall st,
    complete_records (cache_map (snd st)) ->
    complete_records (cache_map (snd (drop_stale l st))).
Proof.
  unfold drop_stale. induction l as [| f rest IH]; intros st Hcm; simpl;
    [assumption |].
  apply IH. rewrite drop_one_eq. cbn [snd emit with_cache cache_map].
  apply Forall_del. exact Hcm.
Qed.

Lemma complete_step (strftime : datetime -> str) (t : thread) (w : world) :
  complete_records (cache_map w) ->
  complete_records (cache_map (snd (step strftime t w))).
Proof.
  intros Hcm.
  destruct t as [f agg ts msg now at_ | dt_window now [|]]; cbn [step].
  - assert (Hgoal : complete_records
                      (cache_map (snd (step_tailer strftime f agg ts msg now
                                                   at_ w)))).
    { destruct at_; cbn [step_tailer snd]; try exact Hcm.
      - exact (proj2 (complete_setdefault f w Hcm)).
      - destruct (process_log strftime (bucket_of w f) f msg agg now)
          as [[cache' evs] | e] eqn:Hpl;
          cbn [snd emit with_cache cache_map]; [| exact Hcm].
        apply complete_set_bucket; [exact Hcm |].
        exact (complete_process_log _ _ _ _ _ _ _ _
                 (complete_bucket_of w f Hcm) Hpl).
      - destruct ts as [[t | raw] |]; exact Hcm.
      - cbn [with_cache cache_map].
        apply complete_set_bucket; [exact Hcm |].
        apply complete_set_record. exact (complete_bucket_of w f Hcm). }
    destruct (step_tailer strftime f agg ts msg now at_ w) as [at' w'].
    exact Hgoal.
  - exact Hcm.
  - cbn [snd]. apply complete_prune_once. exact Hcm.
Qed.

(** X23: every record the program ever holds has both its keys.  Whatever
    lines the Tailers read, whenever the Pruner sweeps, whatever rounds
    [main] makes and however the steps of the threads interleave, each
    record of the cache has a count and a first_seen: records are made
    complete and only ever incremented or deleted.  So the sweep removes a
    record only for its age: the branch of [prune_once] for a missing
    first_seen is never taken. *)
Theorem reachable_records_complete (w : world) :
  reachable w ->
  complete_records (cache_map w)
  /\ (forall p m d, lookup (cache_map w) p m = Some d -> complete_record d)
  /\ (forall dt_window now x,
         In x (scan dt_window now (cache_map w)) ->
         exists c fs,
           snd x = mkRecord (Some c) (Some fs) /\ dt_window < now - fs).
Proof.
  intros Hr.
  assert (Hcm : complete_records (cache_map w)).
  { induction Hr.
    - constructor.
    - apply complete_tail_line. assumption.
    - apply complete_prune_once. assumption.
    - unfold main_round. cbv zeta. apply complete_drop_stale. assumption.
    - apply complete_step. assumption. }
  split; [exact Hcm |]. split.
  - intros p m d Hl.
    destruct (lookup_Some_inv _ _ _ _ Hl) as (cache & Hg & Hgm).
    pose proof (complete_get _ _ _ Hcm Hg) as Hb.
    apply get_In in Hgm.
    unfold complete_bucket in Hb. rewrite Forall_forall in Hb.
    exact (Hb (m, d) Hgm).
  - intros dt_window now x Hin.
    apply scan_In in Hin. destruct Hin as (cache & Hpc & Hmd & Hq).
    unfold complete_records in Hcm. rewrite Forall_forall in Hcm.
    pose proof (Hcm _ Hpc) as Hb. cbn [snd] in Hb.
    unfold complete_bucket in Hb. rewrite Forall_forall in Hb.
    destruct (Hb _ Hmd) as (c & fs & Hx). cbn [snd] in Hx.
    exists c, fs. split; [exact Hx |].
    unfold qualifies in Hq. rewrite Hx in Hq. cbn [first_seen] in Hq.
    apply Z.ltb_lt. exact Hq.
Qed.

Lemma reachable_records_complete_witness :
  let w := world_of (tail_line Sample.parse_datetime Sample.strftime
                               Sample.app_log 5 (Sample.plain "m" 0)
                               Sample.empty_world) in
  lookup (cache_map w) Sample.app_log (s2l "m")
  = Some (mkRecord (Some 1) (Some 0))
  /\ reachable w
  /\ complete_records (cache_map w)
  /\ (forall p m d, lookup (cache_map w) p m = Some d -> complete_record d)
  /\ (forall dt_window now x,
         In x (scan dt_window now (cache_map w)) ->
         exists c fs,
           snd x = mkRecord (Some c) (Some fs) /\ dt_window < now - fs).
Proof.
  intros w.
  assert (Hr : reachable w) by (apply reach_line; apply reach_start).
  split; [vm_compute; reflexivity |].
  split; [exact Hr |].
  exact (reachable_records_complete w Hr).
Defined.
